(** * Twitter post client: content clean-up, scheduling and dispatch

    A shallow embedding of [TwitterPostClient] (the post client of the
    twitter package) and of the helpers it relies on:

    - [JS]: the ECMAScript string primitives the client calls
      ([slice], [lastIndexOf], [trim], the regular-expression replaces,
      [parseInt]);
    - [Json]: [JSON.parse] on the values the client inspects;
    - [Content]: [truncateToCompleteSentence], [trimTweetLength] and the
      clean-up chains of [generateTweetContent] and [generateNewTweet];
    - [Schedule]: [randomFutureDate], [getPostInterval] and the timers
      armed by [start];
    - [Client]: [generateNewTweet], [checkAndSendApprovedTweets],
      [sendTweetAndUpdateCache], [processTweetActions] and
      [handleTextOnlyReply] over an explicit world (tweet table,
      memories, outbound calls);
    - [ActionLoop]: the loop around [processTweetActions] that [start]
      runs;
    - [Trending]: [fetchTrendingSearches], [enrichConnections] and
      [generateTrendingConnections] of the trending searches, over the
      answers of the services they call. *)

From Stdlib Require Import ZArith NArith List String Ascii Bool Lia.
From Stdlib Require DecimalString DecimalNat.
From stdpp Require Import base option list gmap.

Set Warnings "-register-all".
Local Open Scope Z_scope.

(** ** ECMAScript strings *)

Module JS.

(** A string is a sequence of UTF-16 code units. *)
Abbreviation char := N (only parsing).
Abbreviation jsstring := (list N) (only parsing).

(** Literals are written as Rocq strings; every character of a literal
    used below is ASCII, so its code unit is its byte. *)
Definition lit (s : string) : jsstring :=
  List.map N_of_ascii (list_ascii_of_string s).

Definition len (s : jsstring) : Z := Z.of_nat (length s).

(** The double quote, which a Rocq literal cannot hold undoubled. *)
Definition dq : jsstring := [34%N].

(** WhiteSpace and LineTerminator code points: what [trim] strips and
    what the class [\s] matches. *)
Definition is_space (c : char) : bool :=
  ((9 <=? c) && (c <=? 13) || (c =? 32) || (c =? 160) || (c =? 5760)
   || (8192 <=? c) && (c <=? 8202) || (c =? 8232) || (c =? 8233)
   || (c =? 8239) || (c =? 8287) || (c =? 12288) || (c =? 65279))%N.

(** LineTerminator code points: what [.] refuses to match. *)
Definition is_line_terminator (c : char) : bool :=
  ((c =? 10) || (c =? 13) || (c =? 8232) || (c =? 8233))%N.

(** A relative index, as [slice] resolves it: negative counts from the
    end, and the result is clamped to [0, length]. *)
Definition clamp_index (n : Z) (i : Z) : nat :=
  Z.to_nat (if i <? 0 then Z.max (n + i) 0 else Z.min i n).

(** [s.slice(b, e)] *)
Definition slice (s : jsstring) (b e : Z) : jsstring :=
  let from := clamp_index (len s) b in
  let to := clamp_index (len s) e in
  take (to - from) (drop from s).

(** [pat] occurs in [s] at offset 0. *)
Fixpoint starts_with (pat s : jsstring) : bool :=
  match pat, s with
  | [], _ => true
  | _ :: _, [] => false
  | p :: pat', c :: s' => (p =? c)%N && starts_with pat' s'
  end.

(** Scan downwards from offset [k]: the largest offset at most [k] at
    which [pat] occurs, or -1. *)
Fixpoint last_match_from (s pat : jsstring) (k : nat) : Z :=
  if starts_with pat (drop k s) then Z.of_nat k
  else match k with
       | O => -1
       | S k' => last_match_from s pat k'
       end.

(** [s.lastIndexOf(pat, pos)]: the search starts at
    [min(max(pos, 0), length s - length pat)]; without a position
    ([None]) it starts at [length s - length pat]. *)
Definition lastIndexOf (s pat : jsstring) (pos : option Z) : Z :=
  if len s <? len pat then -1
  else last_match_from s pat
         (Z.to_nat (Z.min (Z.max (default (len s) pos) 0) (len s - len pat))).

Fixpoint trim_start (s : jsstring) : jsstring :=
  match s with
  | c :: s' => if is_space c then trim_start s' else s
  | [] => []
  end.

Definition trim_end (s : jsstring) : jsstring :=
  rev (trim_start (rev s)).

(** [s.trim()] *)
Definition trim (s : jsstring) : jsstring := trim_end (trim_start s).

(** *** Regular-expression replaces

    The client only uses global replaces whose pattern consumes at
    least one code unit.  [replace_global match_at by_ 0 s] scans [s]
    from the left: where [match_at] reports a match of [n] code units
    they are replaced by [by_] and the scan resumes behind them;
    elsewhere the code unit is kept. *)
Fixpoint replace_global (match_at : jsstring -> option nat) (by_ : jsstring)
    (skip : nat) (s : jsstring) : jsstring :=
  match s with
  | [] => []
  | c :: s' =>
      match skip with
      | S k => replace_global match_at by_ k s'
      | O =>
          match match_at s with
          | Some (S n) => by_ ++ replace_global match_at by_ n s'
          | _ => c :: replace_global match_at by_ 0 s'
          end
      end
  end.

(** Length of the longest white-space prefix: what a greedy [\s*]
    consumes. *)
Fixpoint count_space (s : jsstring) : nat :=
  match s with
  | c :: s' => if is_space c then S (count_space s') else O
  | [] => O
  end.

(** The pattern [lit\s*]: the literal followed by a greedy run of
    white space. *)
Definition match_lit_spaces (l : jsstring) (s : jsstring) : option nat :=
  if starts_with l s
  then Some (length l + count_space (drop (length l) s))%nat
  else None.

(** The pattern of a plain literal. *)
Definition match_lit (l : jsstring) (s : jsstring) : option nat :=
  if starts_with l s then Some (length l) else None.

(** The replace and replaceAll of the pattern [/\\n/g] by a line feed:
    a backslash followed by [n] becomes one line feed. *)
Definition unescape_newlines (s : jsstring) : jsstring :=
  replace_global (match_lit (lit "\n")) [10%N] 0 s.

(** The replace of the pattern backslash, double quote (global) by a
    double quote. *)
Definition unescape_quotes (s : jsstring) : jsstring :=
  replace_global (match_lit [92%N; 34%N]) [34%N] 0 s.

Definition is_quote (c : char) : bool := ((c =? 39) || (c =? 34))%N.

(** The replace of a leading quote, a group of any characters and a
    trailing quote (single or double) by the group, with or without the
    [g] flag: the pattern is anchored at both ends, so it matches the
    whole string or nothing; the dot matches no line terminator. *)
Definition remove_quotes (s : jsstring) : jsstring :=
  match s with
  | q :: r =>
      match rev r with
      | q' :: rmid =>
          if is_quote q && is_quote q'
             && forallb (fun c => negb (is_line_terminator c)) rmid
          then rev rmid else s
      | [] => s
      end
  | [] => s
  end.

(** *** parseInt

    [parseInt(s)] without a radix: leading white space and one sign are
    skipped, a [0x]/[0X] prefix selects base 16, and the longest run of
    digits is read; [None] is NaN.  The result is the mathematical
    integer (a Number represents it exactly below 2^53). *)
Definition digit_value (c : char) : option Z :=
  if ((48 <=? c) && (c <=? 57))%N then Some (Z.of_N c - 48)
  else if ((97 <=? c) && (c <=? 102))%N then Some (Z.of_N c - 87)
  else if ((65 <=? c) && (c <=? 70))%N then Some (Z.of_N c - 55)
  else None.

Fixpoint read_digits (radix : Z) (acc : option Z) (s : jsstring) : option Z :=
  match s with
  | c :: s' =>
      match digit_value c with
      | Some d =>
          if d <? radix
          then read_digits radix (Some (default 0 acc * radix + d)) s'
          else acc
      | None => acc
      end
  | [] => acc
  end.

Definition parseInt (s : jsstring) : option Z :=
  let s1 := trim_start s in
  let '(neg, s2) :=
    match s1 with
    | 45%N :: r => (true, r)
    | 43%N :: r => (false, r)
    | _ => (false, s1)
    end in
  let '(radix, s3) :=
    match s2 with
    | 48%N :: 120%N :: r => (16, r)
    | 48%N :: 88%N :: r => (16, r)
    | _ => (10, s2)
    end in
  (fun v => if neg then - v else v) <$> read_digits radix None s3.

End JS.

Import JS.

(** ** JSON.parse *)

Module Json.

Inductive value : Type :=
| Null
| Bool (b : bool)
| Num (m e : Z)                          (* the decimal m * 10^e *)
| Str (s : jsstring)
| Arr (items : list value)
| Obj (members : list (jsstring * value)).

(** *** Tokens *)

Inductive token : Type :=
| TLBrace | TRBrace | TLBracket | TRBracket | TColon | TComma
| TString (s : jsstring) | TNumber (m e : Z) | TTrue | TFalse | TNull.

Inductive numstate : Type :=
| NMinus | NZero | NInt | NPoint | NFrac | NE | NESign | NExp.

Record numacc : Type := mkNum {
  n_neg : bool; n_mant : Z; n_scale : Z; n_eneg : bool; n_exp : Z }.

Inductive mode : Type :=
| MTop
| MLit (rest : jsstring) (t : token)
| MStr (acc : jsstring)
| MEsc (acc : jsstring)
| MHex (k : nat) (code : N) (acc : jsstring)
| MNum (st : numstate) (a : numacc).

Definition dec_digit (c : char) : option Z :=
  if ((48 <=? c) && (c <=? 57))%N then Some (Z.of_N c - 48) else None.

Definition num_final (st : numstate) : bool :=
  match st with
  | NZero | NInt | NFrac | NExp => true
  | _ => false
  end.

Definition num_token (a : numacc) : token :=
  TNumber (if n_neg a then - n_mant a else n_mant a)
          ((if n_eneg a then - n_exp a else n_exp a) - n_scale a).

Definition push_mant (a : numacc) (d : Z) (frac : bool) : numacc :=
  mkNum (n_neg a) (n_mant a * 10 + d)
        (if frac then n_scale a + 1 else n_scale a) (n_eneg a) (n_exp a).

Definition push_exp (a : numacc) (d : Z) : numacc :=
  mkNum (n_neg a) (n_mant a) (n_scale a) (n_eneg a) (n_exp a * 10 + d).

Definition set_eneg (a : numacc) : numacc :=
  mkNum (n_neg a) (n_mant a) (n_scale a) true (n_exp a).

Definition is_e (c : char) : bool := ((c =? 101) || (c =? 69))%N.

(** One code unit of a number literal: an optional minus; then a single
    zero, or a non-zero digit and more digits; then optionally a point
    and one or more digits; then optionally [e] or [E], an optional sign
    and one or more digits. *)
Definition num_step (st : numstate) (a : numacc) (c : char)
  : option (numstate * numacc) :=
  match st, dec_digit c with
  | NMinus, Some d => Some (if d =? 0 then NZero else NInt, push_mant a d false)
  | NInt, Some d => Some (NInt, push_mant a d false)
  | (NPoint | NFrac), Some d => Some (NFrac, push_mant a d true)
  | (NE | NESign | NExp), Some d => Some (NExp, push_exp a d)
  | (NZero | NInt), None =>
      if (c =? 46)%N then Some (NPoint, a)
      else if is_e c then Some (NE, a) else None
  | NFrac, None => if is_e c then Some (NE, a) else None
  | NE, None =>
      if (c =? 43)%N then Some (NESign, a)
      else if (c =? 45)%N then Some (NESign, set_eneg a) else None
  | _, _ => None
  end.

Definition num0 (neg : bool) (d : Z) : numacc := mkNum neg d 0 false 0.

(** A code unit met between tokens: the tokens it completes and the
    mode it opens. *)
Definition start (c : char) : option (list token * mode) :=
  if ((c =? 32) || (c =? 9) || (c =? 10) || (c =? 13))%N then Some ([], MTop)
  else if (c =? 123)%N then Some ([TLBrace], MTop)
  else if (c =? 125)%N then Some ([TRBrace], MTop)
  else if (c =? 91)%N then Some ([TLBracket], MTop)
  else if (c =? 93)%N then Some ([TRBracket], MTop)
  else if (c =? 58)%N then Some ([TColon], MTop)
  else if (c =? 44)%N then Some ([TComma], MTop)
  else if (c =? 34)%N then Some ([], MStr [])
  else if (c =? 116)%N then Some ([], MLit (lit "rue") TTrue)
  else if (c =? 102)%N then Some ([], MLit (lit "alse") TFalse)
  else if (c =? 110)%N then Some ([], MLit (lit "ull") TNull)
  else if (c =? 45)%N then Some ([], MNum NMinus (num0 true 0))
  else match dec_digit c with
       | Some d => Some ([], MNum (if d =? 0 then NZero else NInt) (num0 false d))
       | None => None
       end.

(** The code unit an escape letter stands for. *)
Definition escape (c : char) : option char :=
  if (c =? 34)%N then Some 34%N
  else if (c =? 92)%N then Some 92%N
  else if (c =? 47)%N then Some 47%N
  else if (c =? 98)%N then Some 8%N
  else if (c =? 102)%N then Some 12%N
  else if (c =? 110)%N then Some 10%N
  else if (c =? 114)%N then Some 13%N
  else if (c =? 116)%N then Some 9%N
  else None.

(** The tokens of a text, or [None] where no token can be read.  Inside
    a string literal a code unit below U+0020 is refused: control
    characters must be written as escapes. *)
Fixpoint lex (m : mode) (s : jsstring) : option (list token) :=
  match s with
  | [] =>
      match m with
      | MTop => Some []
      | MNum st a => if num_final st then Some [num_token a] else None
      | _ => None
      end
  | c :: s' =>
      match m with
      | MTop =>
          match start c with
          | Some (toks, m') => (fun r => toks ++ r) <$> lex m' s'
          | None => None
          end
      | MLit [] _ => None
      | MLit (x :: r) t =>
          if (c =? x)%N
          then match r with
               | [] => (fun r => t :: r) <$> lex MTop s'
               | _ => lex (MLit r t) s'
               end
          else None
      | MStr acc =>
          if (c =? 34)%N then (fun r => TString (rev acc) :: r) <$> lex MTop s'
          else if (c =? 92)%N then lex (MEsc acc) s'
          else if (c <? 32)%N then None
          else lex (MStr (c :: acc)) s'
      | MEsc acc =>
          if (c =? 117)%N then lex (MHex 4 0 acc) s'
          else match escape c with
               | Some c' => lex (MStr (c' :: acc)) s'
               | None => None
               end
      | MHex k code acc =>
          match digit_value c, k with
          | Some d, S O => lex (MStr ((code * 16 + Z.to_N d)%N :: acc)) s'
          | Some d, S k' => lex (MHex k' (code * 16 + Z.to_N d)%N acc) s'
          | _, _ => None
          end
      | MNum st a =>
          match num_step st a c with
          | Some (st', a') => lex (MNum st' a') s'
          | None =>
              if num_final st
              then match start c with
                   | Some (toks, m') =>
                       (fun r => num_token a :: toks ++ r) <$> lex m' s'
                   | None => None
                   end
              else None
          end
      end
  end.

(** *** Values *)

(** An open container, with what it holds so far (latest first). *)
Inductive frame : Type :=
| InArr (acc : list value)
| InObj (acc : list (jsstring * value)) (key : jsstring).

Inductive pstate : Type :=
| SVal (st : list frame)                 (* a value must follow *)
| SArrFirst (st : list frame)            (* after [[]: a value or []] *)
| SArrNext (acc : list value) (st : list frame)
| SObjFirst (st : list frame)            (* after [{]: a key or [}] *)
| SObjKey (acc : list (jsstring * value)) (st : list frame)
| SObjColon (acc : list (jsstring * value)) (key : jsstring) (st : list frame)
| SObjNext (acc : list (jsstring * value)) (st : list frame)
| SDone (v : value).

(** A value is complete: hand it to the container it sits in. *)
Definition complete (v : value) (st : list frame) : pstate :=
  match st with
  | [] => SDone v
  | InArr acc :: st' => SArrNext (v :: acc) st'
  | InObj acc key :: st' => SObjNext ((key, v) :: acc) st'
  end.

Definition open_value (t : token) (st : list frame) : option pstate :=
  match t with
  | TNull => Some (complete Null st)
  | TTrue => Some (complete (Bool true) st)
  | TFalse => Some (complete (Bool false) st)
  | TNumber m e => Some (complete (Num m e) st)
  | TString s => Some (complete (Str s) st)
  | TLBracket => Some (SArrFirst st)
  | TLBrace => Some (SObjFirst st)
  | _ => None
  end.

Definition pstep (p : pstate) (t : token) : option pstate :=
  match p, t with
  | SVal st, _ => open_value t st
  | SArrFirst st, TRBracket => Some (complete (Arr []) st)
  | SArrFirst st, _ => open_value t (InArr [] :: st)
  | SArrNext acc st, TComma => Some (SVal (InArr acc :: st))
  | SArrNext acc st, TRBracket => Some (complete (Arr (rev acc)) st)
  | SObjFirst st, TRBrace => Some (complete (Obj []) st)
  | SObjFirst st, TString k => Some (SObjColon [] k st)
  | SObjKey acc st, TString k => Some (SObjColon acc k st)
  | SObjColon acc k st, TColon => Some (SVal (InObj acc k :: st))
  | SObjNext acc st, TComma => Some (SObjKey acc st)
  | SObjNext acc st, TRBrace => Some (complete (Obj (rev acc)) st)
  | _, _ => None
  end.

Fixpoint prun (p : pstate) (ts : list token) : option pstate :=
  match ts with
  | [] => Some p
  | t :: ts' =>
      match pstep p t with
      | Some p' => prun p' ts'
      | None => None
      end
  end.

(** [JSON.parse(text)]; [None] is the SyntaxError it throws. *)
Definition parse (text : jsstring) : option value :=
  match lex MTop text with
  | Some ts =>
      match prun (SVal []) ts with
      | Some (SDone v) => Some v
      | _ => None
      end
  | None => None
  end.

(** *** What the client does with a parsed value *)

(** A Number is zero when the decimal rounds to zero in binary64: at
    most 2^-1075 in magnitude. *)
Definition num_is_zero (m e : Z) : bool :=
  (m =? 0) || ((e <? 0) && (Z.abs m * 2 ^ 1075 <=? 10 ^ (- e))).

(** ToBoolean *)
Definition truthy (v : value) : bool :=
  match v with
  | Null => false
  | Bool b => b
  | Num m e => negb (num_is_zero m e)
  | Str s => negb (Nat.eqb (length s) 0)
  | Arr _ | Obj _ => true
  end.

(** The member of an object under a key; a repeated key keeps its last
    value. *)
Fixpoint member (k : jsstring) (ms : list (jsstring * value)) : option value :=
  match ms with
  | [] => None
  | (k', v) :: ms' =>
      match member k ms' with
      | Some v' => Some v'
      | None => if decide (k' = k) then Some v else None
      end
  end.

Inductive access : Type :=
| TypeError                    (* property read on null *)
| Undefined
| Found (v : value).

(** [v.text], [v.content], [v.message], [v.response]: none of these
    names exists on the prototypes of booleans, numbers, strings,
    arrays or objects, so only the own members of an object answer. *)
Definition get (v : value) (k : jsstring) : access :=
  match v with
  | Null => TypeError
  | Obj ms => match member k ms with Some x => Found x | None => Undefined end
  | _ => Undefined
  end.

(** [typeof v === 'object'] *)
Definition is_object (v : value) : bool :=
  match v with
  | Null | Arr _ | Obj _ => true
  | _ => false
  end.

End Json.

(** ** Content clean-up *)

Module Content.

Definition MAX_TWEET_LENGTH : Z := 240.

(** [truncateToCompleteSentence(text, maxTweetLength)] *)
Definition truncateToCompleteSentence (text : jsstring) (maxTweetLength : Z)
  : jsstring :=
  if len text <=? maxTweetLength then text
  else
    let truncatedAtPeriod :=
      slice text 0 (lastIndexOf text (lit ".") (Some maxTweetLength) + 1) in
    if 0 <? len (trim truncatedAtPeriod) then trim truncatedAtPeriod
    else
      let truncatedAtSpace :=
        slice text 0 (lastIndexOf text (lit " ") (Some maxTweetLength)) in
      if 0 <? len (trim truncatedAtSpace)
      then trim truncatedAtSpace ++ lit "..."
      else trim (slice text 0 (maxTweetLength - 3)) ++ lit "...".

(** [trimTweetLength(text, maxLength)]; callers leave [maxLength] at its
    default, 280. *)
Definition trimTweetLength (text : jsstring) (maxLength : Z) : jsstring :=
  if len text <=? maxLength then text
  else
    let lastSentence := lastIndexOf (slice text 0 maxLength) (lit ".") None in
    if 0 <? lastSentence then trim (slice text 0 (lastSentence + 1))
    else
      trim (slice text 0 (lastIndexOf text (lit " ") (Some (maxLength - 3))))
      ++ lit "...".

(** What a clean-up hands on.  [JSON.parse] returns [any], so a field
    read from it may hold something else than a string; the string
    helpers are declared on strings only, and the embedding follows a
    non-string no further than the callers below need. *)
Inductive generated : Type :=
| Text (s : jsstring)
| IllTyped (v : Json.value).

Definition of_field (v : Json.value) (k : jsstring -> jsstring) : generated :=
  match v with
  | Json.Str s => Text (k s)
  | _ => IllTyped v
  end.

(** [a || b]: the left operand when it is truthy. *)
Definition or_else (a b : Json.access) : Json.access :=
  match a with
  | Json.Found v => if Json.truthy v then a else b
  | _ => b
  end.

(** The two fence replaces, the newline replace and the trim that open
    [generateTweetContent]. *)
Definition cleanedResponse (response : jsstring) : jsstring :=
  trim
    (unescape_newlines
       (replace_global (match_lit_spaces (lit "```")) [] 0
          (replace_global (match_lit_spaces (lit "```json")) [] 0 response))).

(** [generateTweetContent], from the model's [response] on.  Every
    throw inside the [try] (the SyntaxError of [JSON.parse], the
    TypeError of a property read on null) lands in its [catch], which
    falls through to the last [return]. *)
Definition generateTweetContent (response : jsstring) : generated :=
  let cleaned := cleanedResponse response in
  let plain := Text (trimTweetLength cleaned 280) in
  match Json.parse cleaned with
  | None => plain
  | Some jsonResponse =>
      let possibleContent :=
        if Json.is_object jsonResponse then
          match or_else (or_else (Json.get jsonResponse (lit "content"))
                                 (Json.get jsonResponse (lit "message")))
                        (Json.get jsonResponse (lit "response")) with
          | Json.Found c =>
              if Json.truthy c
              then of_field c (fun s => trimTweetLength s 280) else plain
          | _ => plain
          end
        else plain in
      match Json.get jsonResponse (lit "text") with
      | Json.TypeError => plain
      | Json.Found v =>
          if Json.truthy v then of_field v (fun s => trimTweetLength s 280)
          else possibleContent
      | Json.Undefined => possibleContent
      end
  end.

(** *** The clean-up block of [generateNewTweet] *)

(** First alternative of the wrapper pattern, anchored at the start:
    white space, an optional opening brace, white space, the quoted key
    [text] and its colon, white space, a double quote. *)
Definition match_text_head (s : jsstring) : option nat :=
  let s1 := drop (count_space s) s in
  let s2 := match s1 with 123%N :: r => r | _ => s1 end in
  let s3 := drop (count_space s2) s2 in
  let key := dq ++ lit "text" ++ dq ++ lit ":" in
  if starts_with key s3 then
    let s4 := drop (length key) s3 in
    match drop (count_space s4) s4 with
    | 34%N :: r => Some (length s - length r)%nat
    | _ => None
    end
  else None.

(** Second alternative, anchored at the end: a double quote, white
    space, an optional closing brace, white space, end of input. *)
Definition match_text_tail (s : jsstring) : option nat :=
  match s with
  | 34%N :: r =>
      let r1 := drop (count_space r) r in
      let r2 := match r1 with 125%N :: r' => r' | _ => r1 end in
      match drop (count_space r2) r2 with
      | [] => Some (length s)
      | _ => None
      end
  | _ => None
  end.

(** The global replace of the wrapper pattern by nothing.  The first
    alternative can only match at offset 0 and is tried there first. *)
Definition strip_text_wrapper (s : jsstring) : jsstring :=
  match match_text_head s with
  | Some n => replace_global match_text_tail [] 0 (drop n s)
  | None => replace_global match_text_tail [] 0 s
  end.

(** The [catch] branch: the raw content cleaned by four replaces and a
    trim. *)
Definition cleanRaw (newTweetContent : jsstring) : jsstring :=
  trim (unescape_newlines (unescape_quotes (remove_quotes
          (strip_text_wrapper newTweetContent)))).

(** [cleanedContent] as it stands after the [try]/[catch]. *)
Definition cleanedContent (newTweetContent : jsstring) : generated :=
  match Json.parse newTweetContent with
  | None => Text (cleanRaw newTweetContent)
  | Some parsedResponse =>
      let unlessText :=
        match parsedResponse with
        | Json.Str s => Text s
        | _ => Text []
        end in
      match Json.get parsedResponse (lit "text") with
      | Json.TypeError => Text (cleanRaw newTweetContent)
      | Json.Found v => if Json.truthy v then of_field v id else unlessText
      | Json.Undefined => unlessText
      end
  end.

(** [removeQuotes(fixNewLines(content))] *)
Definition finalCleaning (content : jsstring) : jsstring :=
  remove_quotes (unescape_newlines content).

End Content.

(** ** Scheduling *)

Module Schedule.

(** *** Numbers

    Minutes, milliseconds and time values are integers; binary64
    arithmetic on integers is exact below 2^53 in magnitude, which
    covers every date and any sensible setting, so they are modelled by
    [Z].  The product with [Math.random()] is not an integer: it is
    rounded as binary64 rounds it. *)

(** A binary64 value in [0, 1): [ud_mant * 2^(- ud_exp)]. *)
Record unit_double : Type := mkUnit { ud_mant : Z; ud_exp : Z }.

Definition is_unit_double (r : unit_double) : bool :=
  (0 <=? ud_mant r) && (ud_mant r <? 2 ^ 53)
  && (0 <=? ud_exp r) && (ud_exp r <=? 1074)
  && (ud_mant r <? 2 ^ ud_exp r).

(** Round the non-negative integer [p] to 53 significant bits, ties to
    even: the result is [q * 2^s]. *)
Definition round53 (p : Z) : Z * Z :=
  if p <? 2 ^ 53 then (p, 0)
  else
    let s := Z.log2 p - 52 in
    let q := p / 2 ^ s in
    let rem := p mod 2 ^ s in
    let half := 2 ^ (s - 1) in
    if (half <? rem) || ((rem =? half) && Z.odd q) then (q + 1, s) else (q, s).

(** [Math.floor(r * n)] for an integer [n]: the exact product
    [ud_mant r * n * 2^(- ud_exp r)] is rounded to binary64, then
    floored. *)
Definition floor_mul (r : unit_double) (n : Z) : Z :=
  let '(q, s) := round53 (Z.abs (ud_mant r * n)) in
  let sq := Z.sgn n * q in
  if ud_exp r <=? s then sq * 2 ^ (s - ud_exp r)
  else sq / 2 ^ (ud_exp r - s).

(** [new Date(t)]: a time value beyond 8.64e15 ms gives an invalid
    date, [None]. *)
Definition new_Date (t : Z) : option Z :=
  if Z.abs t <=? 8640000000000000 then Some t else None.

(** [parseInt(getSetting(key)) || dflt]: NaN and 0 give the default.
    An unset key reads as [None]; [parseInt] of it is NaN. *)
Definition int_setting (v : option jsstring) (dflt : Z) : Z :=
  match v ≫= parseInt with
  | Some n => if n =? 0 then dflt else n
  | None => dflt
  end.

Record settings : Type := mkSettings {
  POST_INTERVAL_MIN : option jsstring;
  POST_INTERVAL_MAX : option jsstring }.

(** [randomFutureDate()].  [pending] is the [createdAt] column of the
    rows [getPendingTweets] returns, [now] the clock read by
    [new Date()], [random] the value [Math.random()] returns. *)
Definition randomFutureDate (cfg : settings) (pending : list Z) (now : Z)
    (random : unit_double) : option Z :=
  let lastPostTimestamp := default now (head pending) in
  let minMinutes := int_setting (POST_INTERVAL_MIN cfg) 12 in
  let maxMinutes := int_setting (POST_INTERVAL_MAX cfg) 24 in
  let randomMinutes :=
    floor_mul random (maxMinutes - minMinutes + 120) + minMinutes in
  new_Date (lastPostTimestamp + randomMinutes * 60 * 1000).

(** *** Timers *)

Inductive callback : Type :=
| ApprovedTweetsLoop           (* [startApprovedTweetsLoop] *)
| GenerateTimeout.             (* the arrow function armed by
                                  [generateNewTweetLoop] *)

Inductive occurrence : Type :=
| CheckedApproved              (* [checkAndSendApprovedTweets] ran *)
| Generated                    (* [generateNewTweet] ran *)
| ActionLoopStarted.           (* [processActionsLoop] was entered *)

Record timer : Type := mkTimer { due : Z; cb : callback }.

(** The state of the timer loop.  Awaited calls take no time here: the
    clock only moves when a timer fires. *)
Record loop : Type := mkLoop {
  clock : Z;
  timers : list timer;                    (* in arming order *)
  tweet_interval : option jsstring;       (* the persisted agent setting *)
  history : list (Z * occurrence) }.      (* latest first *)

(** [setTimeout(cb, delay)].  The runtime arms one millisecond for a
    delay that is NaN ([None]), below 1 or above 2^31 - 1. *)
Definition setTimeout (c : callback) (delay : option Z) (l : loop) : loop :=
  let d := match delay with
           | Some d => if (1 <=? d) && (d <=? 2147483647) then d else 1
           | None => 1
           end in
  mkLoop (clock l) (timers l ++ [mkTimer (clock l + d) c])
         (tweet_interval l) (history l).

Definition record (o : occurrence) (l : loop) : loop :=
  mkLoop (clock l) (timers l) (tweet_interval l) ((clock l, o) :: history l).

(** Truthiness of a string that may be null or undefined. *)
Definition is_set (v : option jsstring) : bool :=
  match v with
  | Some (_ :: _) => true
  | _ => false
  end.

(** [getPostInterval()]: the interval in milliseconds ([None] is NaN)
    and the store, where a missing interval has been written as 30.
    [store_ok] is false when a query of the settings store throws. *)
Definition getPostInterval (store_ok : bool) (l : loop) : option Z * loop :=
  if store_ok then
    let result := tweet_interval l in
    let l' :=
      if is_set result then l
      else mkLoop (clock l) (timers l) (Some (lit "30")) (history l) in
    ((fun n => n * 60 * 1000) <$> parseInt (default (lit "30") result), l')
  else (Some (15 * 60 * 1000), l).

(** [generateNewTweetLoop()] *)
Definition generateNewTweetLoop (store_ok : bool) (l : loop) : loop :=
  let '(interval, l') := getPostInterval store_ok l in
  setTimeout GenerateTimeout interval l'.

(** [startApprovedTweetsLoop()] *)
Definition startApprovedTweetsLoop (l : loop) : loop :=
  record CheckedApproved (setTimeout ApprovedTweetsLoop (Some (5 * 60 * 1000)) l).

(** [start(postImmediately)].  [POST_IMMEDIATELY] is the setting of that
    name as [parseBooleanFromText] reads it, [None] when it is unset or
    empty; [enableActionProcessing] likewise for its setting. *)
Definition start (postImmediately : bool) (POST_IMMEDIATELY : option bool)
    (enableActionProcessing : bool) (store_ok : bool) (l : loop) : loop :=
  let l1 := startApprovedTweetsLoop l in
  let postImmediately := default postImmediately POST_IMMEDIATELY in
  let l2 := if postImmediately then record Generated l1 else l1 in
  let l3 := generateNewTweetLoop store_ok l2 in
  let l4 := if enableActionProcessing then record ActionLoopStarted l3 else l3 in
  generateNewTweetLoop store_ok l4.

(** A timer fires. *)
Definition fire (store_ok : bool) (c : callback) (l : loop) : loop :=
  match c with
  | ApprovedTweetsLoop => startApprovedTweetsLoop l
  | GenerateTimeout => generateNewTweetLoop store_ok (record Generated l)
  end.

(** The timer that fires next: the earliest due, the first armed among
    equals; and the timers that stay. *)
Fixpoint next_timer (ts : list timer) : option (timer * list timer) :=
  match ts with
  | [] => None
  | t :: ts' =>
      match next_timer ts' with
      | Some (t', rest) =>
          if due t' <? due t then Some (t', t :: rest) else Some (t, ts')
      | None => Some (t, [])
      end
  end.

(** Fire, in order, the timers due up to [until]; each firing spends
    one unit of [fuel]. *)
Fixpoint run (fuel : nat) (store_ok : bool) (until : Z) (l : loop) : loop :=
  match fuel with
  | O => l
  | S fuel' =>
      match next_timer (timers l) with
      | Some (t, rest) =>
          if due t <=? until then
            run fuel' store_ok until
              (fire store_ok (cb t)
                 (mkLoop (Z.max (clock l) (due t)) rest
                         (tweet_interval l) (history l)))
          else l
      | None => l
      end
  end.

Definition boot : loop := mkLoop 0 [] None [].

(** How many runs of [generateNewTweet] a history has in the window
    [(from, to]]. *)
Definition generated_in (from to : Z) (h : list (Z * occurrence)) : nat :=
  length (List.filter (fun e => match e with
                                | (t, Generated) => (from <? t) && (t <=? to)
                                | _ => false
                                end) h).

Definition generations (from to : Z) (l : loop) : nat :=
  generated_in from to (history l).

(** The loop as it stands on a multiple [T] of the default interval of
    30 minutes, once the timers due at [T] have fired: both chains of
    generation are armed for [T] plus 30 minutes, the approved loop for
    [T] plus 5 minutes. *)
Definition steady (T : Z) (h : list (Z * occurrence)) : loop :=
  mkLoop T [mkTimer (T + 1800000) GenerateTimeout;
            mkTimer (T + 1800000) GenerateTimeout;
            mkTimer (T + 300000) ApprovedTweetsLoop]
         (Some (lit "30")) h.

(** What the 30 minutes after [T] add to the history. *)
Definition period_history (T : Z) : list (Z * occurrence) :=
  [(T + 1800000, CheckedApproved); (T + 1800000, Generated);
   (T + 1800000, Generated); (T + 1500000, CheckedApproved);
   (T + 1200000, CheckedApproved); (T + 900000, CheckedApproved);
   (T + 600000, CheckedApproved); (T + 300000, CheckedApproved)].

(** The history after [k] further intervals. *)
Fixpoint periods (k : nat) (T : Z) (h : list (Z * occurrence))
  : list (Z * occurrence) :=
  match k with
  | O => h
  | S k' => periods k' (T + 1800000) (period_history T ++ h)
  end.

(** The timers armed for the generation callback. *)
Definition generation_timers (l : loop) : list timer :=
  List.filter (fun t => match cb t with
                        | GenerateTimeout => true
                        | ApprovedTweetsLoop => false
                        end) (timers l).

End Schedule.

(** ** The post client *)

Module Client.

Import Content Schedule.

Abbreviation Id := (list N) (only parsing).

(** *** Collaborators *)

(** A write sent to the social network. *)
Inductive request : Type :=
| sendTweet (text : jsstring) (inReplyTo : option Id) (media : bool)
| sendQuoteTweet (text : jsstring) (quoted : Id)
| likeTweet (tweet : Id)
| retweet (tweet : Id).

(** An outbound write and how it left: [queued] when it ran as a task
    handed to [requestQueue.add], not when the client method was called
    in place. *)
Record call : Type := mkCall { req : request; queued : bool }.

(** What comes back from a queued post. *)
Inductive response : Type :=
| Rejected                     (* the task throws: [add] rejects *)
| Unreadable                   (* [result.json()] throws *)
| Malformed                    (* no [data.create_tweet.tweet_results.result] *)
| Created (rest_id : Id).

Inductive status : Type := Pending | Approved | Sent | Error.

(** A row of the tweet table. *)
Record DBTweet : Type := mkDBTweet {
  tw_id : Id;
  tw_content : jsstring;
  tw_scheduledFor : option Z;
  tw_status : status;
  tw_newTweetContent : jsstring;
  tw_mediaUrl : option jsstring;
  tw_createdAt : Z }.

(** The tags pushed on [executedActions]: like, retweet, quote, reply. *)
Inductive action : Type := Like | Retweet | Quote | Reply.

(** A memory of the message manager.  Its id is
    [stringToUuid(tweetId + "-" + agentId)]; with a single agent and an
    injective [stringToUuid] the tweet id stands for it. *)
Record memory : Type := mkMemory {
  mem_text : jsstring;
  mem_action : option (list action) }.   (* [content.action], when set *)

Record world : Type := mkWorld {
  tweets : gmap Id DBTweet;
  memories : gmap Id memory;
  calls : list call;                     (* latest first *)
  isProcessing : bool }.

Definition with_tweets (f : gmap Id DBTweet -> gmap Id DBTweet) (w : world)
  : world :=
  mkWorld (f (tweets w)) (memories w) (calls w) (isProcessing w).

Definition with_processing (b : bool) (w : world) : world :=
  mkWorld (tweets w) (memories w) (calls w) b.

(** [this.client.requestQueue.add(async () => await
    this.client.twitterClient.m(...))] *)
Definition submit (r : request) (w : world) : world :=
  mkWorld (tweets w) (memories w) (mkCall r true :: calls w) (isProcessing w).

(** [this.client.twitterClient.m(...)] called in place. *)
Definition direct (r : request) (w : world) : world :=
  mkWorld (tweets w) (memories w) (mkCall r false :: calls w) (isProcessing w).

(** [this.runtime.messageManager.createMemory] *)
Definition createMemory (key : Id) (m : memory) (w : world) : world :=
  mkWorld (tweets w) (<[key := m]> (memories w)) (calls w) (isProcessing w).

Definition set_status (s : status) (t : DBTweet) : DBTweet :=
  mkDBTweet (tw_id t) (tw_content t) (tw_scheduledFor t) s
            (tw_newTweetContent t) (tw_mediaUrl t) (tw_createdAt t).

(** Modelled from the spec: the queries of the tweet table
    ([tweetQueries], in the db package) are not part of the sources at
    hand.  The spec gives the store as record-oriented, keyed by id, with
    simple status updates: [saveTweetObject] writes the row under its
    id. *)
Definition saveTweetObject (t : DBTweet) (w : world) : world :=
  with_tweets (insert (tw_id t) t) w.

(** Modelled from the spec: [updateTweetStatus(id, status)],
    [markTweetAsSent(id)] and [markTweetAsError(id, error)] set the
    status of the row with that id, if there is one. *)
Definition updateTweetStatus (i : Id) (s : status) (w : world) : world :=
  with_tweets (alter (set_status s) i) w.

Definition markTweetAsSent (i : Id) : world -> world :=
  updateTweetStatus i Sent.

Definition markTweetAsError (i : Id) : world -> world :=
  updateTweetStatus i Error.

(** Modelled from the spec: [getSentTweetById(id)] returns the rows
    with that id. *)
Definition getSentTweetById (i : Id) (w : world) : list DBTweet :=
  option_list (tweets w !! i).

(** How a function body ends. *)
Inductive completion (A : Type) : Type :=
| Normal (a : A)
| Throw.
Arguments Normal {A} a.
Arguments Throw {A}.

(** *** Generation *)

Record generation : Type := mkGeneration {
  g_context_ok : bool;           (* nothing throws before the model call *)
  g_image : bool;                (* [tweetType === 'image/jpeg'] *)
  g_newTweetContent : option jsstring;   (* [None]: the model call throws *)
  g_mediaUrl : option jsstring;
  g_dry_run : bool;              (* [TWITTER_DRY_RUN === 'true'] *)
  g_settings : settings;
  g_pending : option (list Z);   (* [getPendingTweets]; [None]: it throws *)
  g_now : Z;
  g_random : unit_double;
  g_id : Id;                     (* [stringToUuid] of the time stamp *)
  g_save_ok : bool;              (* [saveTweetObject] does not throw *)
  g_response : response;
  g_after_ok : bool }.           (* nothing throws after the response *)

(** [saveTweetToDb({..., scheduledFor})] *)
Definition saveTweetToDb (content newTweetContent : jsstring)
    (scheduledFor : option (option Z)) (mediaUrl : option jsstring)
    (g : generation) (w : world) : completion Id * world :=
  let scheduled :=
    match scheduledFor with
    | Some d => Some d
    | None =>
        (fun pending =>
           randomFutureDate (g_settings g) pending (g_now g) (g_random g))
          <$> g_pending g
    end in
  match scheduled with
  | None => (Throw, w)
  | Some scheduledFor =>
      if g_save_ok g then
        let tweetToSave :=
          mkDBTweet (g_id g) content scheduledFor Pending newTweetContent
                    mediaUrl (g_now g) in
        (Normal (tw_id tweetToSave), saveTweetObject tweetToSave w)
      else (Throw, w)
  end.

(** [generateNewTweet()] *)
Definition generateNewTweet (g : generation) (w : world) : world :=
  if negb (g_context_ok g) then w else
  match g_newTweetContent g with
  | None => w
  | Some newTweetContent =>
      match cleanedContent newTweetContent with
      | IllTyped _ => w          (* a string method is missing: TypeError *)
      | Text [] => w             (* nothing extracted *)
      | Text cleaned =>
          let content := truncateToCompleteSentence cleaned MAX_TWEET_LENGTH in
          let cleaned := finalCleaning content in
          if g_dry_run g then w else
          match saveTweetToDb content newTweetContent None
                  (if g_image g then g_mediaUrl g else None) g w with
          | (Throw, w1) => w1
          | (Normal tweetId, w1) =>
              let w2 := submit (sendTweet cleaned None false) w1 in
              match g_response g with
              | Created rest_id =>
                  if g_after_ok g
                  then createMemory rest_id
                         (mkMemory (trim newTweetContent) None) w2
                  else w2
              | _ => w2
              end
          end
      end
  end.

(** *** Approved tweets *)

Record delivery : Type := mkDelivery {
  d_media_ok : bool;             (* [urlToImage] does not throw *)
  d_response : response;
  d_after_ok : bool }.           (* nothing throws after the response *)

(** A saved id is used when it is truthy: present and not empty. *)
Definition usable (i : option Id) : option Id :=
  if is_set i then i else None.

(** [sendTweetAndUpdateCache(content, homeTimeline, newTweetContent,
    savedTweetId, mediaData)]; the result is the id of the new post. *)
Definition sendTweetAndUpdateCache (content newTweetContent : jsstring)
    (savedTweetId : option Id) (media : bool) (d : delivery) (w : world)
  : completion (option Id) * world :=
  let w1 := submit (sendTweet content None media) w in
  let mark s w := match usable savedTweetId with
                  | Some i => updateTweetStatus i s w
                  | None => w
                  end in
  match d_response d with
  | Rejected => (Normal None, w1)
  | Unreadable => (Throw, w1)
  | Malformed => (Normal None, mark Error w1)
  | Created rest_id =>
      let w2 := mark Sent w1 in
      if d_after_ok d
      then (Normal (Some rest_id),
            createMemory rest_id (mkMemory (trim newTweetContent) None) w2)
      else (Throw, w2)
  end.

(** The body of the loop of [checkAndSendApprovedTweets]: one approved
    row is dispatched.  [Throw] leaves the loop. *)
Definition dispatch (dry_run : bool) (tweet : DBTweet) (d : delivery)
    (w : world) : completion unit * world :=
  if dry_run then (Normal (), w) else
  if is_set (tw_mediaUrl tweet) && negb (d_media_ok d)
  then (Throw, w) else
  let tweetInDB := getSentTweetById (tw_id tweet) w in
  let sent := existsb (fun t => match tw_status t with
                                | Sent => true
                                | _ => false
                                end) tweetInDB in
  if sent then (Normal (), w) else
  let w1 := markTweetAsSent (tw_id tweet) w in
  match sendTweetAndUpdateCache (tw_content tweet) (tw_newTweetContent tweet)
          (Some (tw_id tweet)) (is_set (tw_mediaUrl tweet)) d w1 with
  | (Normal _, w2) => (Normal (), w2)
  | (Throw, w2) => (Normal (), markTweetAsError (tw_id tweet) w2)
  end.

(** [checkAndSendApprovedTweets()], from the rows [getApprovedTweets]
    returned on; a throw that leaves the loop is logged and ends the
    check. *)
Fixpoint checkAndSendApprovedTweets (dry_run : bool)
    (result : list (DBTweet * delivery)) (w : world) : world :=
  match result with
  | [] => w
  | (tweet, d) :: rest =>
      match dispatch dry_run tweet d w with
      | (Normal _, w') => checkAndSendApprovedTweets dry_run rest w'
      | (Throw, w') => w'
      end
  end.

(** *** Actions *)

(** A tweet of the timeline. *)
Record Tweet : Type := mkTweet { t_id : Id; t_text : jsstring }.

(** The flags [generateTweetActions] returns. *)
Record ActionResponse : Type := mkActions {
  a_like : bool; a_retweet : bool; a_quote : bool; a_reply : bool }.

Inductive decision : Type :=
| DecisionThrows               (* a call before the actions throws *)
| NoDecision                   (* [generateTweetActions] gave nothing *)
| Decided (r : ActionResponse).

(** What the collaborators do while one tweet is processed.  Content is
    what [generateTweetContent] resolves to, at its declared type;
    [None] is a throw. *)
Record processing : Type := mkProcessing {
  p_decision : decision;
  p_like_ok : bool;
  p_retweet_ok : bool;
  p_quote_context_ok : bool;     (* thread, images, state: no throw *)
  p_quote_content : option jsstring;
  p_quote_response : response;
  p_reply_context_ok : bool;
  p_reply_content : option jsstring;
  p_reply_response : response;
  p_record_ok : bool }.          (* room, user, participant, memory *)

(** The tweet being processed: the world and the [executedActions]
    array, which [handleTextOnlyReply] shares with its caller. *)
Record item_state : Type := mkItem {
  i_world : world;
  executedActions : list action }.

Definition push (a : action) (st : item_state) : item_state :=
  mkItem (i_world st) (executedActions st ++ [a]).

Definition on_world (f : world -> world) (st : item_state) : item_state :=
  mkItem (f (i_world st)) (executedActions st).

(** [if (actionResponse.like) { try { ... } catch { ... } }] *)
Definition do_like (tweet : Tweet) (p : processing) (st : item_state)
  : item_state :=
  let st1 := on_world (direct (likeTweet (t_id tweet))) st in
  if p_like_ok p then push Like st1 else st1.

(** [if (actionResponse.retweet) { try { ... } catch { ... } }] *)
Definition do_retweet (tweet : Tweet) (p : processing) (st : item_state)
  : item_state :=
  let st1 := on_world (direct (retweet (t_id tweet))) st in
  if p_retweet_ok p then push Retweet st1 else st1.

(** How the statements for one action end: the next statement runs, or
    the enclosing function returns. *)
Inductive flow : Type := Continues | Returns.

(** [if (actionResponse.quote) { try { ... } catch { ... } }] inside
    [processTweetActions]: the [return] on empty content is a return of
    [processTweetActions]. *)
Definition do_quote (tweet : Tweet) (p : processing) (st : item_state)
  : flow * item_state :=
  if negb (p_quote_context_ok p) then (Continues, st) else
  match p_quote_content p with
  | None => (Continues, st)
  | Some [] => (Returns, st)
  | Some quoteContent =>
      let st1 := on_world (submit (sendQuoteTweet quoteContent (t_id tweet))) st in
      match p_quote_response p with
      | Created _ => (Continues, push Quote st1)
      | _ => (Continues, st1)
      end
  end.

(** [handleTextOnlyReply(tweet, tweetState, executedActions)]: the
    [return] on empty content is a return of this function only. *)
Definition handleTextOnlyReply (tweet : Tweet) (p : processing)
    (st : item_state) : item_state :=
  if negb (p_reply_context_ok p) then st else
  match p_reply_content p with
  | None => st
  | Some [] => st
  | Some replyText =>
      let st1 :=
        on_world (submit (sendTweet replyText (Some (t_id tweet)) false)) st in
      match p_reply_response p with
      | Created _ => push Reply st1
      | _ => st1
      end
  end.

Record result : Type := mkResult {
  tweetId : Id;
  parsedActions : ActionResponse;
  r_executedActions : list action }.

(** The body of the loop of [processTweetActions] for one tweet: the
    result pushed, if any, and whether the loop goes on. *)
Definition process_tweet (tweet : Tweet) (p : processing) (w : world)
  : flow * option result * world :=
  match memories w !! t_id tweet with
  | Some _ => (Continues, None, w)          (* already processed *)
  | None =>
      match p_decision p with
      | DecisionThrows | NoDecision => (Continues, None, w)
      | Decided actionResponse =>
          let st0 := mkItem w [] in
          let st1 := if a_like actionResponse then do_like tweet p st0 else st0 in
          let st2 := if a_retweet actionResponse then do_retweet tweet p st1 else st1 in
          match (if a_quote actionResponse then do_quote tweet p st2
                 else (Continues, st2)) with
          | (Returns, st3) => (Returns, None, i_world st3)
          | (Continues, st3) =>
              let st4 := if a_reply actionResponse
                         then handleTextOnlyReply tweet p st3 else st3 in
              if p_record_ok p then
                (Continues,
                 Some (mkResult (t_id tweet) actionResponse (executedActions st4)),
                 createMemory (t_id tweet)
                   (mkMemory (t_text tweet) (Some (executedActions st4)))
                   (i_world st4))
              else (Continues, None, i_world st4)
          end
      end
  end.

(** What [processTweetActions] gives its caller. *)
Inductive pass : Type :=
| Busy                                   (* [null]: a pass is running *)
| Completed (results : list result)
| ReturnedEarly                          (* [undefined] *)
| Failed.                                (* the error is thrown on *)

Fixpoint process_timeline (homeTimeline : list (Tweet * processing))
    (results : list result) (w : world) : pass * world :=
  match homeTimeline with
  | [] => (Completed results, w)
  | (tweet, p) :: rest =>
      match process_tweet tweet p w with
      | (Returns, _, w') => (ReturnedEarly, w')
      | (Continues, r, w') =>
          process_timeline rest (results ++ option_list r) w'
      end
  end.

(** [processTweetActions()]; [homeTimeline] is what
    [fetchTimelineForActions] returns, [None] when it or the call before
    it throws.  The [finally] clears the flag on every way out. *)
Definition processTweetActions (homeTimeline : option (list (Tweet * processing)))
    (w : world) : pass * world :=
  if isProcessing w then (Busy, w) else
  let w1 := with_processing true w in
  match homeTimeline with
  | None => (Failed, with_processing false w1)
  | Some tl =>
      let '(r, w2) := process_timeline tl [] w1 in
      (r, with_processing false w2)
  end.

Definition empty_world : world := mkWorld ∅ ∅ [] false.

(** A post is a write that creates a tweet. *)
Definition is_post (r : request) : bool :=
  match r with
  | sendTweet _ _ _ | sendQuoteTweet _ _ => true
  | likeTweet _ | retweet _ => false
  end.

(** A call that left the way the client routes its kind: a post through
    the queue, a like or a retweet in place. *)
Definition routed (c : call) : bool := Bool.eqb (queued c) (is_post (req c)).

(** From [w] to [w'] calls were only added, each routed as its kind
    is. *)
Definition calls_routed (w w' : world) : Prop :=
  exists new, calls w' = new ++ calls w /\ forallb routed new = true.

(** The status of the row with the given id. *)
Definition status_of (i : Id) (w : world) : option status :=
  tw_status <$> tweets w !! i.

End Client.

Import Content Schedule Client.

(** ** Inputs of the closed statements below *)

Module Scenario.

(** Three back quotes and [json], a line feed, an object whose [text]
    member is Hello, backslash, n, World, a line feed, three back
    quotes. *)
Definition fenced_payload : jsstring :=
  lit "```json" ++ [10%N]
  ++ lit "{" ++ dq ++ lit "text" ++ dq ++ lit ":"
  ++ dq ++ lit "Hello\nWorld" ++ dq ++ lit "}"
  ++ [10%N] ++ lit "```".

(** The same object, with a line feed where the escape stood. *)
Definition object_with_line_feed : jsstring :=
  lit "{" ++ dq ++ lit "text" ++ dq ++ lit ":"
  ++ dq ++ lit "Hello" ++ [10%N] ++ lit "World" ++ dq ++ lit "}".

Definition hello_world : jsstring := lit "Hello" ++ [10%N] ++ lit "World".

(** 300 letters: no period, no space. *)
Definition letters300 : jsstring := repeat 97%N 300.

(** 300 code units with a period at offset 50 and nowhere else. *)
Definition period_at_50 : jsstring :=
  repeat 97%N 50 ++ lit "." ++ repeat 98%N 249.

(** 300 code units with a space at offset 90 and nowhere else, and no
    period. *)
Definition space_at_90 : jsstring :=
  repeat 97%N 90 ++ lit " " ++ repeat 98%N 209.

Definition now0 : Z := 1700000000000.

(** A generation where the model answers gm and every collaborator
    succeeds, outside dry-run. *)
Definition gm : generation :=
  mkGeneration true false (Some (lit "gm")) None false (mkSettings None None)
    (Some []) now0 (mkUnit 0 0) (lit "tweet-1") true (Created (lit "900"))
    true.

(** A table with one row, approved and not yet sent. *)
Definition approved_row : DBTweet :=
  mkDBTweet (lit "tweet-1") (lit "gm") (Some (now0 + 720000)) Approved
            (lit "gm") None now0.

Definition table : world := saveTweetObject approved_row empty_world.

Definition malformed : delivery := mkDelivery true Malformed true.
Definition delivered : delivery := mkDelivery true (Created (lit "900")) true.

Definition tweet42 : Tweet := mkTweet (lit "42") (lit "hello").

(** All four actions decided; both likes and retweets succeed; the
    content generated for the quote is empty; the reply would have been
    generated and posted. *)
Definition quote_comes_empty : processing :=
  mkProcessing (Decided (mkActions true true true true)) true true
    true (Some []) (Created (lit "901"))
    true (Some (lit "nice")) (Created (lit "902")) true.

(** Only a like decided. *)
Definition like_only : processing :=
  mkProcessing (Decided (mkActions true false false false)) true true
    true None Malformed true None Malformed true.

Definition tweet43 : Tweet := mkTweet (lit "43") (lit "world").

End Scenario.

(** ** Payloads of the model *)

Module Payload.

(** A code unit that stands for itself inside a JSON string literal
    (no control character, double quote or backslash) and is no back
    quote. *)
Definition plain_char (c : char) : bool :=
  ((32 <=? c) && negb (c =? 34) && negb (c =? 92) && negb (c =? 96))%N.

(** The text of an object with one member, a key and a string, and no
    white space: a brace, the quoted key, a colon, the quoted string, a
    brace. *)
Definition single_member (key s : jsstring) : jsstring :=
  lit "{" ++ dq ++ key ++ dq ++ lit ":" ++ dq ++ s ++ dq ++ lit "}".

(** The four members [generateTweetContent] reads. *)
Definition content_keys : list jsstring :=
  [lit "text"; lit "content"; lit "message"; lit "response"].

End Payload.

(** ** What the properties below observe *)

Module Observe.

(** The post [checkAndSendApprovedTweets] makes for a row. *)
Definition row_post (t : DBTweet) : call :=
  mkCall (sendTweet (tw_content t) None (is_set (tw_mediaUrl t))) true.



(** The status a dispatched row is left with, by the answer to its
    post. *)
Definition final_status (d : delivery) : status :=
  match d_response d with
  | Rejected => Sent
  | Created _ => if d_after_ok d then Sent else Error
  | Unreadable | Malformed => Error
  end.

(** The flag of the decision an action tag belongs to. *)
Definition decided (r : ActionResponse) (a : action) : bool :=
  match a with
  | Like => a_like r
  | Retweet => a_retweet r
  | Quote => a_quote r
  | Reply => a_reply r
  end.

(** The write on the network an executed action stands for. *)
Definition call_of (i : Id) (a : action) (c : call) : bool :=
  match a, req c with
  | Like, likeTweet j => bool_decide (j = i) && negb (queued c)
  | Retweet, retweet j => bool_decide (j = i) && negb (queued c)
  | Quote, sendQuoteTweet _ j => bool_decide (j = i) && queued c
  | Reply, sendTweet _ (Some j) _ => bool_decide (j = i) && queued c
  | _, _ => false
  end.

End Observe.

Import Observe.

(** ** Invariants of a pass over the timeline *)

Module Pass.

(** What holds of the tweet being processed, from the world [w0] the
    tweet was met in: nothing but calls has been added, the executed
    actions are among [allowed], in its order, and each has its call
    among the new ones. *)
Definition item_inv (i : Id) (allowed : list action) (w0 : world)
    (st : item_state) : Prop :=
  tweets (i_world st) = tweets w0
  /\ memories (i_world st) = memories w0
  /\ isProcessing (i_world st) = isProcessing w0
  /\ exists new,
       calls (i_world st) = new ++ calls w0
       /\ sublist (executedActions st) allowed
       /\ forall a, a ∈ executedActions st ->
            exists c, c ∈ new /\ call_of i a c = true.

(** The tags in the order [processTweetActions] takes the actions. *)
Definition action_order : list action := [Like; Retweet; Quote; Reply].

(** What a pass that went from [w] to [w'] and made the calls [new]
    leaves for a result [r] it returns: the tweet had no memory, it has
    one now, holding the executed actions; these are among the decided
    ones, in the order of the actions, and each has its call among the
    new ones. *)
Definition recorded (w w' : world) (new : list call) (r : result) : Prop :=
  memories w !! tweetId r = None
  /\ (exists text,
        memories w' !! tweetId r
        = Some (mkMemory text (Some (r_executedActions r))))
  /\ sublist (r_executedActions r)
             (List.filter (decided (parsedActions r)) action_order)
  /\ forall a, a ∈ r_executedActions r ->
       exists c, c ∈ new /\ call_of (tweetId r) a c = true.

End Pass.

Import Pass.

(** ** Further inputs of closed statements *)

Module Cases.

(** All four actions decided: the like succeeds, the retweet fails, the
    quote is posted, the content of the reply comes empty. *)
Definition mixed : processing :=
  mkProcessing (Decided (mkActions true true true true)) true false
    true (Some (lit "so true")) (Created (lit "905"))
    true (Some []) Malformed true.

Definition mixed_actions : ActionResponse := mkActions true true true true.

(** The world after one pass over tweet 42 with [mixed]. *)
Definition after_mixed : world :=
  mkWorld ∅
    (<[lit "42" := mkMemory (lit "hello") (Some [Like; Quote])]> ∅)
    [mkCall (sendQuoteTweet (lit "so true") (lit "42")) true;
     mkCall (retweet (lit "42")) false;
     mkCall (likeTweet (lit "42")) false]
    false.

End Cases.

(** ** The loop of the actions *)

Module ActionLoop.

(** [parseInt(getSetting('ACTION_INTERVAL')) || 300000] *)
Definition actionInterval (ACTION_INTERVAL : option jsstring) : Z :=
  int_setting ACTION_INTERVAL 300000.

(** The time a timer armed by [setTimeout(resolve, delay)] runs for:
    the runtime arms one millisecond for a delay below 1 or above
    2^31 - 1. *)
Definition timeout_delay (delay : Z) : Z :=
  if (1 <=? delay) && (delay <=? 2147483647) then delay else 1.

(** What one round of the [while] waits for after its pass: the
    interval when [processTweetActions] gave results (an array is
    truthy, even an empty one), 30 seconds when it threw, and nothing
    when it gave [null] or [undefined]. *)
Definition pause (ACTION_INTERVAL : option jsstring) (r : pass) : Z :=
  match r with
  | Completed _ => timeout_delay (actionInterval ACTION_INTERVAL)
  | Failed => timeout_delay 30000
  | Busy | ReturnedEarly => 0
  end.

(** [processActionsLoop()], for the rounds it makes before [stop] sets
    [stopProcessingActions]: [rounds] holds, for each round, what the
    timeline fetch gives.  The result is the time spent in pauses and
    the world. *)
Fixpoint processActionsLoop (ACTION_INTERVAL : option jsstring)
    (rounds : list (option (list (Tweet * processing)))) (waited : Z)
    (w : world) : Z * world :=
  match rounds with
  | [] => (waited, w)
  | homeTimeline :: rest =>
      let '(r, w') := processTweetActions homeTimeline w in
      processActionsLoop ACTION_INTERVAL rest
        (waited + pause ACTION_INTERVAL r) w'
  end.

(** The likes of a tweet among the calls. *)
Definition likes_of (i : Id) (cs : list call) : nat :=
  length (List.filter (call_of i Like) cs).

End ActionLoop.

Import ActionLoop.

(** ** Trending searches *)

Module Trending.

(** A JSON number is carried as the decimal [m * 10^e] it was written
    as; the module computes nothing with the numbers of a search. *)
Definition number : Type := Z * Z.

(** [idx.toString()] of an array index: its decimal digits. *)
Definition toString (idx : nat) : jsstring :=
  lit (DecimalString.NilEmpty.string_of_uint (Nat.to_uint idx)).

(** An entry of [data.trending_searches], as far as it is read. *)
Record RawSearch : Type := mkRaw {
  raw_query : jsstring;
  raw_search_volume : number;
  raw_increase_percentage : number;
  raw_trend_breakdown : option (list jsstring) }.

Record TrendingSearch : Type := mkSearch {
  ts_id : jsstring;
  ts_query : jsstring;
  ts_search_volume : number;
  ts_increase_percentage : number;
  ts_trend_breakdown : option (list jsstring) }.

Record Connection : Type := mkConnection {
  trendingSearchId : jsstring;
  source : jsstring;
  target : jsstring;
  c_query : jsstring;
  reason : jsstring }.

Record TrendingConnections : Type := mkConnections {
  tc_title : jsstring;
  tc_connections : list Connection }.

Record TavilySearchResult : Type := mkTavily {
  r_title : jsstring; r_url : jsstring; r_content : jsstring }.

Record EnrichedConnection : Type := mkEnriched {
  e_connection : Connection;                  (* [...connection] *)
  sourceData : list TavilySearchResult;
  targetData : list TavilySearchResult }.

Record FinalEnrichedConnection : Type := mkFinal {
  f_connection : Connection;
  improvedConnection : jsstring }.

Record Node : Type := mkNode {
  n_query : jsstring;
  n_search_volume : number;
  n_increase_percentage : number;
  n_trend_breakdown : list jsstring }.

Record Edge : Type := mkEdge {
  ed_source : jsstring; ed_target : jsstring; ed_reason : jsstring }.

(** The [content] of a [VitruvianStream]; [timestamp] is the time
    value that [toISOString] prints. *)
Record VitruvianStream : Type := mkStream {
  nodes : list Node;
  connections : list Edge;
  timestamp : Z;
  total_nodes : nat;
  total_connections : nat;
  title : jsstring }.

(** What the services answer. *)
Record services : Type := mkServices {
  (* the trending searches fetched by [generateTrendingConnections];
     [None]: the fetch or the reading of its answer throws *)
  fetched : option (list RawSearch);
  (* those fetched again inside [generateSimpleTrendingConnections] *)
  fetched_again : option (list RawSearch);
  (* the model asked for connections between the searches of the
     prompt; [None]: the call throws *)
  model_connections : list TrendingSearch -> option TrendingConnections;
  (* the search service, by query; [None]: the call throws *)
  tavily : jsstring -> option (list TavilySearchResult);
  (* the model asked to improve the enriched connections *)
  model_improved :
    list EnrichedConnection -> option (list FinalEnrichedConnection);
  (* the clock *)
  now : Z }.

(** [fetchTrendingSearches()]: the [catch] throws the error on. *)
Definition fetchTrendingSearches (response : option (list RawSearch))
  : completion (list TrendingSearch) :=
  match response with
  | None => Throw
  | Some trending_searches =>
      Normal (imap (fun idx search =>
                      mkSearch (toString idx) (raw_query search)
                        (raw_search_volume search)
                        (raw_increase_percentage search)
                        (raw_trend_breakdown search))
                   trending_searches)
  end.

(** [trendingSearches.map((s, idx) => ({ ...s, id: idx.toString() }))] *)
Definition withIds (trendingSearches : list TrendingSearch)
  : list TrendingSearch :=
  imap (fun idx s =>
          mkSearch (toString idx) (ts_query s) (ts_search_volume s)
            (ts_increase_percentage s) (ts_trend_breakdown s))
       trendingSearches.

(** [generateSimpleTrendingConnections()]: the prompt is built from the
    searches with their ids, and every throw is thrown on. *)
Definition generateSimpleTrendingConnections (sv : services)
  : completion TrendingConnections :=
  match fetchTrendingSearches (fetched_again sv) with
  | Throw => Throw
  | Normal trendingSearches =>
      match model_connections sv (withIds trendingSearches) with
      | Some result => Normal result
      | None => Throw
      end
  end.

(** [searchTavily(query)]: an error gives no results. *)
Definition searchTavily (sv : services) (query : jsstring)
  : list TavilySearchResult :=
  default [] (tavily sv query).

(** [enrichConnection(connection)] *)
Definition enrichConnection (sv : services) (connection : Connection)
  : EnrichedConnection :=
  mkEnriched connection
    (searchTavily sv (source connection ++ lit " " ++ c_query connection))
    (searchTavily sv (target connection ++ lit " " ++ c_query connection)).

(** lodash's [chunk(array, size)]: slices of [size] elements from the
    left, the last one with what remains; no chunk for a size below 1.
    There are at most as many slices as elements. *)
Fixpoint chunk_from {A : Type} (fuel size : nat) (array : list A)
  : list (list A) :=
  match fuel, array with
  | S fuel', _ :: _ =>
      take size array :: chunk_from fuel' size (drop size array)
  | _, _ => []
  end.

Definition chunk {A : Type} (array : list A) (size : nat) : list (list A) :=
  match size with
  | O => []
  | S _ => chunk_from (length array) size array
  end.

(** [enrichConnections(connections)]: the chunks of three are enriched
    and flattened. *)
Definition enrichConnections (sv : services) (connections : list Connection)
  : list EnrichedConnection :=
  let chunks := chunk connections 3 in
  concat ((fun chunk : list Connection => enrichConnection sv <$> chunk)
            <$> chunks).

(** [improveConnections(enrichedConnections)] *)
Definition improveConnections (sv : services)
    (enrichedConnections : list EnrichedConnection)
  : completion (list FinalEnrichedConnection) :=
  match model_improved sv enrichedConnections with
  | Some connections => Normal connections
  | None => Throw
  end.

(** [a || b] on strings *)
Definition or_string (a b : jsstring) : jsstring :=
  match a with
  | [] => b
  | _ => a
  end.

Definition node_of (search : TrendingSearch) : Node :=
  mkNode (ts_query search) (ts_search_volume search)
         (ts_increase_percentage search)
         (default [] (ts_trend_breakdown search)).

Definition edge_of (conn : FinalEnrichedConnection) : Edge :=
  mkEdge (source (f_connection conn)) (target (f_connection conn))
         (or_string (improvedConnection conn) (reason (f_connection conn))).

(** The minimal structure returned by the [catch]. *)
Definition minimal (sv : services) : VitruvianStream :=
  mkStream [] [] (now sv) 0 0 [].

(** [generateTrendingConnections()]: the first fetch is outside the
    [try]. *)
Definition generateTrendingConnections (sv : services)
  : completion VitruvianStream :=
  match fetchTrendingSearches (fetched sv) with
  | Throw => Throw
  | Normal trendingSearches =>
      match generateSimpleTrendingConnections sv with
      | Throw => Normal (minimal sv)
      | Normal trendingConnections =>
          let enrichedConnections :=
            enrichConnections sv (tc_connections trendingConnections) in
          match improveConnections sv enrichedConnections with
          | Throw => Normal (minimal sv)
          | Normal improvedConnections =>
              Normal (mkStream (node_of <$> trendingSearches)
                        (edge_of <$> improvedConnections)
                        (now sv)
                        (length trendingSearches)
                        (length improvedConnections)
                        (tc_title trendingConnections))
          end
      end
  end.

End Trending.

Import Trending.

(** * Properties *)

(** ** String primitives *)

Section StringFacts.

Implicit Types (s : jsstring) (c : char).

Lemma starts_with_single c s k :
  starts_with [c] (drop k s) = true <-> s !! k = Some c.
Proof.
  replace (s !! k) with (drop k s !! 0%nat)
    by (rewrite lookup_drop; f_equal; lia).
  destruct (drop k s) as [|x r]; simpl.
  - split; discriminate.
  - rewrite andb_true_r, N.eqb_eq. split; congruence.
Qed.

Lemma last_match_from_0 s pat :
  last_match_from s pat 0 =
  if starts_with pat (drop 0 s) then 0 else -1.
Proof. reflexivity. Qed.

Lemma last_match_from_S s pat k :
  last_match_from s pat (S k) =
  if starts_with pat (drop (S k) s) then Z.of_nat (S k)
  else last_match_from s pat k.
Proof. reflexivity. Qed.

Lemma starts_with_single_false c s k :
  s !! k <> Some c -> starts_with [c] (drop k s) = false.
Proof. intros H. apply not_true_is_false. by rewrite starts_with_single. Qed.

(** The downward scan finds the occurrence at [j] when nothing above
    it, up to the starting offset, matches. *)
Lemma last_match_from_found c s j k :
  (j <= k)%nat ->
  s !! j = Some c ->
  (forall i, (j < i <= k)%nat -> s !! i <> Some c) ->
  last_match_from s [c] k = Z.of_nat j.
Proof.
  induction k as [|k IH]; intros Hjk Hj Hno.
  - assert (j = 0%nat) as -> by lia.
    apply starts_with_single in Hj. by rewrite last_match_from_0, Hj.
  - rewrite last_match_from_S.
    destruct (decide (j = S k)) as [->|Hne].
    + apply starts_with_single in Hj. by rewrite Hj.
    + rewrite starts_with_single_false by (apply Hno; lia).
      apply IH; [lia|done|]. intros i Hi. apply Hno. lia.
Qed.

Lemma last_match_from_none c s k :
  (forall i, (i <= k)%nat -> s !! i <> Some c) ->
  last_match_from s [c] k = -1.
Proof.
  induction k as [|k IH]; intros Hno.
  - rewrite last_match_from_0, starts_with_single_false; [done|].
    apply Hno. lia.
  - rewrite last_match_from_S, starts_with_single_false by (apply Hno; lia).
    apply IH. intros i Hi. apply Hno. lia.
Qed.

(** [lastIndexOf] of a single code unit, when the string is longer than
    the position. *)
Lemma lastIndexOf_found c s j pos :
  0 <= pos < len s ->
  Z.of_nat j <= pos ->
  s !! j = Some c ->
  (forall i, (j < i)%nat -> Z.of_nat i <= pos -> s !! i <> Some c) ->
  lastIndexOf s [c] (Some pos) = Z.of_nat j.
Proof.
  unfold lastIndexOf, len. intros Hpos Hj Hat Hno. simpl length.
  destruct (Z.ltb_spec (Z.of_nat (length s)) (Z.of_nat 1)); [lia|].
  apply last_match_from_found; [simpl; lia|done|].
  intros i Hi. apply Hno; simpl in Hi; lia.
Qed.

Lemma lastIndexOf_none c s pos :
  0 <= pos ->
  (forall i, Z.of_nat i <= pos -> s !! i <> Some c) ->
  lastIndexOf s [c] (Some pos) = -1.
Proof.
  unfold lastIndexOf. intros Hpos Hno.
  destruct (len s <? len [c]); [done|].
  apply last_match_from_none. intros i Hi. apply Hno. simpl in Hi. lia.
Qed.

Lemma slice_prefix s e :
  0 <= e <= len s -> slice s 0 e = take (Z.to_nat e) s.
Proof.
  unfold slice, clamp_index, len. intros He.
  destruct (Z.ltb_spec e 0); [lia|]. simpl.
  rewrite (Z.min_l 0) by lia. rewrite Z.min_l by lia.
  simpl. by rewrite Nat.sub_0_r.
Qed.

Lemma slice_minus_one s :
  slice s 0 (-1) = take (length s - 1) s.
Proof.
  unfold slice, clamp_index, len. simpl.
  rewrite (Z.min_l 0) by lia. simpl. rewrite Nat.sub_0_r. f_equal. lia.
Qed.

Lemma trim_start_keeps c s :
  is_space c = false -> trim_start (c :: s) = c :: s.
Proof. intros H. simpl. by rewrite H. Qed.

(** [trim] leaves a string alone when neither end is white space. *)
Lemma trim_keeps c s c' :
  is_space c = false -> is_space c' = false ->
  trim (c :: s ++ [c']) = c :: s ++ [c'].
Proof.
  intros Hc Hc'. unfold trim, trim_end. rewrite trim_start_keeps by done.
  replace (rev (c :: s ++ [c'])) with (c' :: rev (c :: s)).
  - rewrite trim_start_keeps by done.
    change (c' :: rev (c :: s)) with (rev [c'] ++ rev (c :: s)).
    by rewrite <- rev_app_distr, rev_involutive.
  - change (c :: s ++ [c']) with ((c :: s) ++ [c']).
    by rewrite rev_app_distr.
Qed.

Lemma trim_keeps_single c :
  is_space c = false -> trim [c] = [c].
Proof. intros Hc. unfold trim, trim_end. simpl. rewrite Hc. simpl. by rewrite Hc. Qed.

Lemma trim_nil : trim [] = [].
Proof. reflexivity. Qed.

(** A non-empty string is its first code unit alone, or its first, a
    middle and its last. *)
Lemma ends_of c s :
  s = [] \/ exists m c', s = m ++ [c'].
Proof.
  destruct (rev s) as [|c' m] eqn:E.
  - left. by rewrite <- (rev_involutive s), E.
  - right. exists (rev m), c'. by rewrite <- (rev_involutive s), E.
Qed.

Lemma trim_no_space s :
  Forall (fun c => is_space c = false) s -> trim s = s.
Proof.
  intros H. destruct s as [|c s]; [done|].
  destruct (ends_of c s) as [->|(m & c' & ->)].
  - apply trim_keeps_single. by inversion H.
  - apply trim_keeps.
    + by inversion H.
    + inversion H as [|? ? _ H']. apply Forall_app in H' as [_ H'].
      by inversion H'.
Qed.

(** [trim] leaves a string alone when neither end is white space. *)
Lemma trim_ends s :
  (forall c, head s = Some c -> is_space c = false) ->
  (forall c, last s = Some c -> is_space c = false) ->
  trim s = s.
Proof.
  intros Hh Hl. destruct s as [|c s]; [done|].
  destruct (ends_of c s) as [->|(m & c' & ->)].
  - apply trim_keeps_single. by apply Hh.
  - apply trim_keeps; [by apply Hh|].
    apply Hl. change (c :: m ++ [c']) with ((c :: m) ++ [c']).
    by rewrite last_snoc.
Qed.

Lemma head_take s n c :
  head s = Some c -> (0 < n)%nat -> head (take n s) = Some c.
Proof. destruct s, n; simpl; intros; try done; lia. Qed.

Lemma last_take s n :
  (n < length s)%nat -> last (take (S n) s) = s !! n.
Proof.
  intros Hn. destruct (lookup_lt_is_Some_2 s n Hn) as [x Hx].
  by rewrite (take_S_r _ _ _ Hx), last_snoc.
Qed.

End StringFacts.

(** ** truncateToCompleteSentence *)

Section Truncate.

Variables (text : jsstring) (limit : Z).
Hypothesis too_long : limit < len text.
Hypothesis limit_nonneg : 0 <= limit.

Let period : char := 46%N.
Let space : char := 32%N.

(** A period within the limit: the output is the text up to and
    including the last such period (white space trimmed; none is when
    the text starts with none). *)
Lemma truncate_at_period j :
  Z.of_nat j <= limit ->
  text !! j = Some period ->
  (forall i, (j < i)%nat -> Z.of_nat i <= limit -> text !! i <> Some period) ->
  (forall c, head text = Some c -> is_space c = false) ->
  truncateToCompleteSentence text limit = take (S j) text.
Proof.
  intros Hj Hat Hlast Hhead. unfold truncateToCompleteSentence.
  destruct (Z.leb_spec (len text) limit); [lia|].
  change (lit ".") with [period].
  rewrite (lastIndexOf_found period text j limit) by (done || lia).
  assert (j < length text)%nat as Hlen by (by eapply lookup_lt_Some).
  rewrite slice_prefix by (unfold len; lia).
  replace (Z.to_nat (Z.of_nat j + 1)) with (S j) by lia.
  assert (trim (take (S j) text) = take (S j) text) as ->.
  { apply trim_ends.
    - intros c Hc. apply Hhead.
      destruct text; simpl in *; congruence.
    - intros c. rewrite last_take, Hat by done. by intros [= <-]. }
  unfold len. rewrite length_take.
  destruct (Z.ltb_spec 0 (Z.of_nat (S j `min` length text))); [done|lia].
Qed.

(** No period but a space within the limit: the output is the text up
    to the last such space, and the ellipsis. *)
Lemma truncate_at_space j :
  (forall i, Z.of_nat i <= limit -> text !! i <> Some period) ->
  Z.of_nat (S j) <= limit ->
  text !! S j = Some space ->
  (forall i, (S j < i)%nat -> Z.of_nat i <= limit -> text !! i <> Some space) ->
  (forall c, head text = Some c -> is_space c = false) ->
  (forall c, text !! j = Some c -> is_space c = false) ->
  truncateToCompleteSentence text limit = take (S j) text ++ lit "...".
Proof.
  intros Hno Hj Hat Hlast Hhead Hbefore. unfold truncateToCompleteSentence.
  destruct (Z.leb_spec (len text) limit); [lia|].
  change (lit ".") with [period]. change (lit " ") with [space].
  rewrite lastIndexOf_none by done.
  rewrite (lastIndexOf_found space text (S j) limit) by (done || lia).
  assert (S j < length text)%nat as Hlen by (by eapply lookup_lt_Some).
  rewrite !slice_prefix by (unfold len; lia).
  replace (Z.to_nat (Z.of_nat (S j))) with (S j) by lia.
  simpl (trim (take _ _)) at 1. simpl (0 <? len []).
  assert (trim (take (S j) text) = take (S j) text) as ->.
  { apply trim_ends.
    - intros c Hc. apply Hhead.
      destruct text; simpl in *; congruence.
    - intros c. rewrite last_take by lia. apply Hbefore. }
  unfold len. rewrite length_take.
  destruct (Z.ltb_spec 0 (Z.of_nat (S j `min` length text))); [done|lia].
Qed.

(** Neither a period nor a space within the limit: [lastIndexOf]
    answers -1 and [slice(0, -1)] keeps all but the last code unit, so
    the branch for the word boundary returns nearly the whole text; the
    hard truncation below it is not reached. *)
Lemma truncate_without_boundary :
  (forall i, Z.of_nat i <= limit -> text !! i <> Some period) ->
  (forall i, Z.of_nat i <= limit -> text !! i <> Some space) ->
  (forall c, head text = Some c -> is_space c = false) ->
  (forall c, text !! (length text - 2)%nat = Some c -> is_space c = false) ->
  0 < limit ->
  truncateToCompleteSentence text limit
  = take (length text - 1) text ++ lit "...".
Proof.
  intros Hnop Hnos Hhead Hlast Hpos. unfold truncateToCompleteSentence.
  destruct (Z.leb_spec (len text) limit); [lia|].
  change (lit ".") with [period]. change (lit " ") with [space].
  rewrite !lastIndexOf_none by done.
  rewrite slice_prefix by (unfold len; lia). rewrite slice_minus_one.
  simpl (trim (take _ _)) at 1. simpl (0 <? len []).
  assert (2 <= length text)%nat as Hlen by (unfold len in *; lia).
  assert (trim (take (length text - 1) text) = take (length text - 1) text)
    as ->.
  { apply trim_ends.
    - intros c Hc. apply Hhead.
      destruct text as [|? [|]]; simpl in *; try congruence; lia.
    - intros c. replace (length text - 1)%nat with (S (length text - 2)) by lia.
      rewrite last_take by lia. apply Hlast. }
  unfold len. rewrite length_take.
  destruct (Z.ltb_spec 0 (Z.of_nat ((length text - 1) `min` length text)));
    [done|lia].
Qed.

End Truncate.

(** ** randomFutureDate *)

Section RandomMinutes.

(** Rounding to 53 bits moves a value by at most half a unit of the
    last kept place. *)
Lemma round53_spec p :
  0 <= p ->
  exists q s, round53 p = (q, s) /\ 0 <= s /\ 0 <= q /\
    (s = 0 /\ q = p \/
     1 <= s /\ 2 ^ (s + 52) <= p /\ q * 2 ^ s <= p + 2 ^ (s - 1)).
Proof.
  intros Hp. unfold round53.
  destruct (Z.ltb_spec p (2 ^ 53)) as [Hsmall|Hbig].
  - exists p, 0. repeat split; try lia.
  - set (s := Z.log2 p - 52).
    assert (53 <= Z.log2 p) as Hlog.
    { change 53 with (Z.log2 (2 ^ 53)). apply Z.log2_le_mono. lia. }
    assert (1 <= s) as Hs by (unfold s; lia).
    assert (2 ^ (s + 52) <= p) as Hpow.
    { replace (s + 52) with (Z.log2 p) by (unfold s; lia).
      apply Z.log2_spec. lia. }
    assert (0 < 2 ^ (s - 1)) as Hhalf by (apply Z.pow_pos_nonneg; lia).
    assert (2 ^ s = 2 * 2 ^ (s - 1)) as Hdouble.
    { rewrite <- Z.pow_succ_r by lia. f_equal. lia. }
    pose proof (Z.div_mod p (2 ^ s) ltac:(lia)) as Hdm.
    pose proof (Z.mod_pos_bound p (2 ^ s) ltac:(lia)) as Hrem.
    assert (0 <= p / 2 ^ s) as Hq by (apply Z.div_pos; lia).
    destruct ((2 ^ (s - 1) <? p mod 2 ^ s)
              || (p mod 2 ^ s =? 2 ^ (s - 1)) && Z.odd (p / 2 ^ s)) eqn:Hup.
    + exists (p / 2 ^ s + 1), s. repeat split; lia.
    + exists (p / 2 ^ s), s. repeat split; lia.
Qed.

(** [Math.floor(Math.random() * n)] is one of 0, ..., n - 1: the
    rounded product never reaches [n]. *)
Lemma floor_mul_bound r n :
  is_unit_double r = true -> 1 <= n ->
  0 <= floor_mul r n <= n - 1.
Proof.
  unfold is_unit_double. intros Hr Hn.
  repeat (apply andb_true_iff in Hr as [Hr ?]).
  destruct r as [m e]; simpl in *.
  repeat match goal with
         | H : (_ <=? _) = true |- _ => apply Z.leb_le in H
         | H : (_ <? _) = true |- _ => apply Z.ltb_lt in H
         end.
  unfold floor_mul; simpl.
  rewrite Z.abs_eq by nia. rewrite (Z.sgn_pos n) by lia.
  destruct (round53_spec (m * n) ltac:(nia)) as (q & s & -> & Hs & Hq & Hcase).
  assert (0 < 2 ^ e) as He by (apply Z.pow_pos_nonneg; lia).
  assert (0 < 2 ^ s) as Hs2 by (apply Z.pow_pos_nonneg; lia).
  assert (q * 2 ^ s < n * 2 ^ e) as Hlt.
  { destruct Hcase as [[-> ->]|(Hs1 & Hpow & Hround)].
    - simpl. nia.
    - assert (2 ^ (s - 1) < n); [|nia].
      assert (2 ^ (s + 52) = 2 ^ (s - 1) * 2 ^ 53) as Heq.
      { rewrite <- Z.pow_add_r by lia. f_equal. lia. }
      nia. }
  rewrite Z.mul_1_l.
  destruct (Z.leb_spec e s) as [Hes|Hes].
  - assert (2 ^ s = 2 ^ (s - e) * 2 ^ e) as Heq.
    { rewrite <- Z.pow_add_r by lia. f_equal. lia. }
    assert (0 < 2 ^ (s - e)) by (apply Z.pow_pos_nonneg; lia).
    nia.
  - assert (2 ^ e = 2 ^ (e - s) * 2 ^ s) as Heq.
    { rewrite <- Z.pow_add_r by lia. f_equal. lia. }
    assert (0 < 2 ^ (e - s)) by (apply Z.pow_pos_nonneg; lia).
    split.
    + apply Z.div_pos; lia.
    + assert (q / 2 ^ (e - s) < n); [|lia].
      apply Z.div_lt_upper_bound; [lia|]. nia.
Qed.

End RandomMinutes.

(** C8.  With minMinutes = 12 and maxMinutes = 24, whatever
    [Math.random()] returns, a date that [randomFutureDate] produces
    lies between 12 and 144 minutes after the reference time (the
    creation time of the first pending tweet, else the clock); and a
    date is produced whenever the reference time leaves 144 minutes
    before the end of the range of dates. *)
Theorem C8_random_future_date_within_bounds
    (cfg : settings) (pending : list Z) (now : Z) (random : unit_double) :
  is_unit_double random = true ->
  int_setting (POST_INTERVAL_MIN cfg) 12 = 12 ->
  int_setting (POST_INTERVAL_MAX cfg) 24 = 24 ->
  let reference := default now (head pending) in
  (forall futureDate,
     randomFutureDate cfg pending now random = Some futureDate ->
     reference + 12 * 60 * 1000 <= futureDate
     /\ futureDate <= reference + 144 * 60 * 1000)
  /\ (Z.abs reference + 144 * 60 * 1000 <= 8640000000000000 ->
      is_Some (randomFutureDate cfg pending now random)).
Proof.
  intros Hr Hmin Hmax reference. unfold randomFutureDate.
  rewrite Hmin, Hmax. fold reference.
  pose proof (floor_mul_bound random (24 - 12 + 120) Hr ltac:(lia)) as Hb.
  unfold new_Date. split.
  - intros d. case_match; [|done]. intros [= <-]. lia.
  - intros Hrange. case_match; [by eexists|].
    match goal with H : (_ <=? _) = false |- _ => apply Z.leb_gt in H end.
    lia.
Qed.

(** The bounds at the largest value of [Math.random()] below 1, with
    no setting stored and no pending tweet. *)
Lemma C8_random_future_date_within_bounds_witness :
  let reference := 1700000000000 in
  (forall futureDate,
     randomFutureDate (mkSettings None None) [] 1700000000000
       (mkUnit 9007199254740991 53) = Some futureDate ->
     reference + 12 * 60 * 1000 <= futureDate
     /\ futureDate <= reference + 144 * 60 * 1000)
  /\ (Z.abs reference + 144 * 60 * 1000 <= 8640000000000000 ->
      is_Some (randomFutureDate (mkSettings None None) [] 1700000000000
                 (mkUnit 9007199254740991 53))).
Proof.
  apply (C8_random_future_date_within_bounds (mkSettings None None) []
           1700000000000 (mkUnit 9007199254740991 53)); reflexivity.
Defined.

(** Both ends of the range of minutes occur: 12 for the smallest value
    of [Math.random()], 143 for the largest below 1. *)
Lemma random_future_date_extremes :
  randomFutureDate (mkSettings None None) [] 0 (mkUnit 0 0)
  = Some (12 * 60 * 1000)
  /\ randomFutureDate (mkSettings None None) [] 0 (mkUnit 9007199254740991 53)
     = Some (143 * 60 * 1000).
Proof. split; reflexivity. Qed.

(** ** truncateToCompleteSentence at the limit of 100 *)

(** A text of 300 code units with a period at offset 50 and none
    behind it up to the limit: the output is the first 51 code units. *)
Lemma truncate_period_at_50 (text : jsstring) :
  len text = 300 ->
  text !! 50%nat = Some 46%N ->
  (forall i, (50 < i <= 100)%nat -> text !! i <> Some 46%N) ->
  (forall c, head text = Some c -> is_space c = false) ->
  truncateToCompleteSentence text 100 = take 51 text.
Proof.
  intros Hlen Hat Hno Hhead.
  apply (truncate_at_period text 100); try done; try lia.
  intros i ? ?. apply Hno. lia.
Qed.

(** A text of 300 code units without a period up to the limit, with a
    space at offset 90 and none behind it: the output is the first 90
    code units and the ellipsis. *)
Lemma truncate_space_at_90 (text : jsstring) :
  len text = 300 ->
  (forall i, (i <= 100)%nat -> text !! i <> Some 46%N) ->
  text !! 90%nat = Some 32%N ->
  (forall i, (90 < i <= 100)%nat -> text !! i <> Some 32%N) ->
  (forall c, head text = Some c -> is_space c = false) ->
  (forall c, text !! 89%nat = Some c -> is_space c = false) ->
  truncateToCompleteSentence text 100 = take 90 text ++ lit "...".
Proof.
  intros Hlen Hnop Hat Hno Hhead Hbefore.
  apply (truncate_at_space text 100); try done; try lia.
  - intros i ?. apply Hnop. lia.
  - intros i ? ?. apply Hno. lia.
Qed.

Example truncate_period_at_50_example :
  truncateToCompleteSentence Scenario.period_at_50 100
  = repeat 97%N 50 ++ lit ".".
Proof. vm_compute. reflexivity. Qed.

Example truncate_space_at_90_example :
  truncateToCompleteSentence Scenario.space_at_90 100
  = repeat 97%N 90 ++ lit "...".
Proof. vm_compute. reflexivity. Qed.

(** C5, third case.  On 300 letters with neither a period nor a space
    and a limit of 100, [truncateToCompleteSentence] returns 299 letters
    and the ellipsis, 302 code units in all, where the claim has 97
    letters and the ellipsis, 100 in all: the search for a space answers
    -1, [slice(0, -1)] drops only the last letter, and the hard
    truncation below is never reached. *)
Theorem C5_truncate_without_boundary_exceeds_limit :
  truncateToCompleteSentence Scenario.letters300 100
  = repeat 97%N 299 ++ lit "..."
  /\ len (truncateToCompleteSentence Scenario.letters300 100) = 302
  /\ truncateToCompleteSentence Scenario.letters300 100
     <> repeat 97%N 97 ++ lit "...".
Proof. vm_compute. repeat split; discriminate. Qed.

(** ** generateTweetContent *)

(** Inside a string literal [JSON.parse] refuses a raw control
    character. *)
Lemma lex_control_in_string (acc : jsstring) (c : char) (s : jsstring) :
  (c <? 32)%N = true -> Json.lex (Json.MStr acc) (c :: s) = None.
Proof.
  intros Hc. simpl. rewrite Hc. apply N.ltb_lt in Hc.
  assert ((c =? 34)%N = false) as -> by (apply N.eqb_neq; lia).
  assert ((c =? 92)%N = false) as -> by (apply N.eqb_neq; lia).
  done.
Qed.

(** The fences go, and the escaped newline is turned into a line feed
    before the text is parsed. *)
Lemma cleanedResponse_fenced :
  cleanedResponse Scenario.fenced_payload = Scenario.object_with_line_feed.
Proof. vm_compute. reflexivity. Qed.

(** With the line feed inside its string the object is no JSON text;
    with the escape still in place it would have been one. *)
Lemma parse_after_unescape :
  Json.parse Scenario.object_with_line_feed = None
  /\ Json.parse (lit "{" ++ dq ++ lit "text" ++ dq ++ lit ":"
                 ++ dq ++ lit "Hello\nWorld" ++ dq ++ lit "}")
     = Some (Json.Obj [(lit "text", Json.Str Scenario.hello_world)]).
Proof. vm_compute. split; reflexivity. Qed.

(** C6.  On the fenced payload [generateTweetContent] returns the whole
    object text, braces, key and quotes included, with a line feed
    between Hello and World; the claim has Hello, a line feed, World.
    The newline is unescaped before [JSON.parse] runs, the parse throws
    on the raw line feed, and the [catch] falls back to the cleaned
    response. *)
Theorem C6_fenced_json_text_is_not_extracted :
  generateTweetContent Scenario.fenced_payload
  = Text Scenario.object_with_line_feed
  /\ generateTweetContent Scenario.fenced_payload
     <> Text Scenario.hello_world.
Proof. vm_compute. split; [reflexivity|discriminate]. Qed.

(** Without an escape in it, the same fenced payload is extracted. *)
Example generateTweetContent_fenced_plain :
  generateTweetContent
    (lit "```json" ++ [10%N] ++ lit "{" ++ dq ++ lit "text" ++ dq ++ lit ":"
     ++ dq ++ lit "Hello World" ++ dq ++ lit "}" ++ [10%N] ++ lit "```")
  = Text (lit "Hello World").
Proof. vm_compute. reflexivity. Qed.

(** An empty response gives empty content, and so does a response made
    of fences only. *)
Example generateTweetContent_empty :
  generateTweetContent [] = Text []
  /\ generateTweetContent (lit "```json" ++ [10%N] ++ lit "```") = Text [].
Proof. vm_compute. split; reflexivity. Qed.

(** ** The timers of start *)

Lemma generateNewTweetLoop_arms (store_ok : bool) (l : loop) :
  clock (generateNewTweetLoop store_ok l) = clock l
  /\ exists d, timers (generateNewTweetLoop store_ok l)
               = timers l ++ [mkTimer (clock l + d) GenerateTimeout].
Proof.
  unfold generateNewTweetLoop, getPostInterval, setTimeout.
  destruct store_ok; [destruct (is_set (tweet_interval l))|]; simpl; eauto.
Qed.

(** Whatever the flags and the stored interval, [start] arms the timer
    of the approved loop once and the timer of generation twice. *)
Lemma start_arms_generation_twice
    (postImmediately : bool) (POST_IMMEDIATELY : option bool)
    (enableActionProcessing store_ok : bool) (l : loop) :
  exists d1 d2,
    timers (start postImmediately POST_IMMEDIATELY enableActionProcessing
                  store_ok l)
    = timers l ++ [mkTimer (clock l + 300000) ApprovedTweetsLoop;
                   mkTimer (clock l + d1) GenerateTimeout;
                   mkTimer (clock l + d2) GenerateTimeout].
Proof.
  unfold start.
  set (l1 := startApprovedTweetsLoop l).
  set (l2 := if default postImmediately POST_IMMEDIATELY
             then record Generated l1 else l1).
  set (l3 := generateNewTweetLoop store_ok l2).
  set (l4 := if enableActionProcessing then record ActionLoopStarted l3 else l3).
  assert (clock l2 = clock l
          /\ timers l2 = timers l ++ [mkTimer (clock l + 300000)
                                              ApprovedTweetsLoop]) as [Hc2 Ht2].
  { unfold l2. by destruct (default postImmediately POST_IMMEDIATELY). }
  destruct (generateNewTweetLoop_arms store_ok l2) as (Hc3 & d1 & Ht3).
  fold l3 in Hc3, Ht3.
  assert (clock l4 = clock l3 /\ timers l4 = timers l3) as [Hc4 Ht4].
  { unfold l4. by destruct enableActionProcessing. }
  destruct (generateNewTweetLoop_arms store_ok l4) as (_ & d2 & Ht5).
  exists d1, d2.
  rewrite Ht5, Ht4, Hc4, Ht3, Hc3, Ht2, Hc2, <- !app_assoc. done.
Qed.

Lemma start_generation_timers (postImmediately : bool)
    (POST_IMMEDIATELY : option bool) (enableActionProcessing store_ok : bool) :
  length (generation_timers
            (start postImmediately POST_IMMEDIATELY enableActionProcessing
                   store_ok boot)) = 2%nat.
Proof.
  destruct (start_arms_generation_twice postImmediately POST_IMMEDIATELY
              enableActionProcessing store_ok boot) as (d1 & d2 & H).
  unfold generation_timers. by rewrite H.
Qed.

(** The first three intervals, run with fuel to spare: the timers left
    are all due after the horizon. *)
Example generation_first_three_intervals :
  let interval := 30 * 60 * 1000 in
  let l := run 64 true (3 * interval) (start false None true true boot) in
  generations 0 interval l = 2%nat
  /\ generations interval (2 * interval) l = 2%nat
  /\ generations (2 * interval) (3 * interval) l = 2%nat
  /\ forallb (fun t => 3 * interval <? due t) (timers l) = true.
Proof. vm_compute. repeat split. Qed.

Section Periodic.

Lemma run_fire f ok until l t rest :
  next_timer (timers l) = Some (t, rest) ->
  due t <= until ->
  run (S f) ok until l
  = run f ok until
      (fire ok (cb t)
         (mkLoop (Z.max (clock l) (due t)) rest (tweet_interval l) (history l))).
Proof.
  intros Hn Hd. simpl. rewrite Hn.
  by destruct (Z.leb_spec (due t) until); [|lia].
Qed.

Lemma fire_approved ok c ts ti h :
  fire ok ApprovedTweetsLoop (mkLoop c ts ti h)
  = mkLoop c (ts ++ [mkTimer (c + 300000) ApprovedTweetsLoop]) ti
           ((c, CheckedApproved) :: h).
Proof. reflexivity. Qed.

Lemma fire_generate c ts h :
  fire true GenerateTimeout (mkLoop c ts (Some (lit "30")) h)
  = mkLoop c (ts ++ [mkTimer (c + 1800000) GenerateTimeout])
           (Some (lit "30")) ((c, Generated) :: h).
Proof. reflexivity. Qed.

Ltac decide_order :=
  repeat match goal with
         | |- context [?a <? ?b] =>
             first [ rewrite (proj2 (Z.ltb_lt a b)) by lia
                   | rewrite (proj2 (Z.ltb_ge a b)) by lia ]
         end.

Ltac fire_next :=
  erewrite run_fire;
  [ | repeat (progress (simpl; decide_order)); reflexivity | simpl; lia ];
  simpl cb; simpl due; simpl clock; simpl tweet_interval; simpl history;
  rewrite ?fire_approved, ?fire_generate; rewrite Z.max_r by lia; simpl app.

Lemma steady_period T h until f :
  0 <= T -> T + 1800000 <= until ->
  run (8 + f) true until (steady T h)
  = run f true until (steady (T + 1800000) (period_history T ++ h)).
Proof.
  intros HT Huntil. unfold steady.
  change (8 + f)%nat with (S (S (S (S (S (S (S (S f)))))))).
  do 8 fire_next.
  rewrite <- !Z.add_assoc. reflexivity.
Qed.

(** The timers right after [start()] with nothing stored, and the
    first interval. *)
Lemma first_period until f :
  1800000 <= until ->
  run (8 + f) true until (start false None true true boot)
  = run f true until
      (steady 1800000
         (period_history 0 ++ [(0, ActionLoopStarted); (0, CheckedApproved)])).
Proof.
  intros Huntil.
  change (start false None true true boot)
    with (mkLoop 0 [mkTimer 300000 ApprovedTweetsLoop;
                    mkTimer 1800000 GenerateTimeout;
                    mkTimer 1800000 GenerateTimeout]
            (Some (lit "30")) [(0, ActionLoopStarted); (0, CheckedApproved)]).
  change (8 + f)%nat with (S (S (S (S (S (S (S (S f)))))))).
  do 8 fire_next. reflexivity.
Qed.

Lemma steady_periods k : forall T h until f,
  0 <= T -> T + Z.of_nat k * 1800000 <= until ->
  run (8 * k + f) true until (steady T h)
  = run f true until (steady (T + Z.of_nat k * 1800000) (periods k T h)).
Proof.
  induction k as [|k IH]; intros T h until f HT Huntil.
  - replace (T + Z.of_nat 0 * 1800000) with T by lia. reflexivity.
  - replace (8 * S k + f)%nat with (8 + (8 * k + f))%nat by lia.
    replace (T + Z.of_nat (S k) * 1800000)
      with (T + 1800000 + Z.of_nat k * 1800000) by lia.
    rewrite steady_period by lia. by rewrite IH by lia.
Qed.

(** Generations counted in a history. *)
Lemma generated_in_app from to h1 h2 :
  generated_in from to (h1 ++ h2)
  = (generated_in from to h1 + generated_in from to h2)%nat.
Proof. unfold generated_in. by rewrite List.filter_app, length_app. Qed.

Lemma generated_in_period from to T :
  generated_in from to (period_history T)
  = if (from <? T + 1800000) && (T + 1800000 <=? to) then 2%nat else 0%nat.
Proof.
  unfold generated_in. simpl.
  by destruct ((from <? T + 1800000) && (T + 1800000 <=? to)).
Qed.

(** Later intervals add nothing to a window that has closed. *)
Lemma generated_in_periods_closed k : forall T h from to,
  to <= T ->
  generated_in from to (periods k T h) = generated_in from to h.
Proof.
  induction k as [|k IH]; intros T h from to Hto; [done|].
  cbn [periods]. rewrite IH by lia.
  rewrite generated_in_app, generated_in_period.
  destruct (Z.leb_spec (T + 1800000) to); [lia|].
  by rewrite andb_false_r.
Qed.

Lemma generated_in_old from to h :
  (forall e, In e h -> e.1 <= from) -> generated_in from to h = 0%nat.
Proof.
  unfold generated_in. induction h as [|[t o] h IH]; intros Hh; [done|].
  simpl. assert (t <= from) by (apply (Hh (t, o)); by left).
  destruct (Z.ltb_spec from t); [lia|].
  destruct o; simpl; apply IH; intros e He; apply Hh; by right.
Qed.

(** In the history of [k] intervals from [T] on, each of them holds
    exactly two generations. *)
Lemma generated_in_periods k : forall T h j,
  (j < k)%nat ->
  (forall e, In e h -> e.1 <= T) ->
  generated_in (T + Z.of_nat j * 1800000) (T + Z.of_nat (S j) * 1800000)
               (periods k T h) = 2%nat.
Proof.
  induction k as [|k IH]; intros T h j Hj Hh; [lia|].
  cbn [periods]. destruct j as [|j].
  - rewrite generated_in_periods_closed by lia.
    rewrite generated_in_app, generated_in_period.
    rewrite generated_in_old by (intros e He; specialize (Hh e He); lia).
    destruct (Z.ltb_spec (T + Z.of_nat 0 * 1800000) (T + 1800000)); [|lia].
    destruct (Z.leb_spec (T + 1800000) (T + Z.of_nat 1 * 1800000)); [|lia].
    done.
  - replace (T + Z.of_nat (S j) * 1800000)
      with (T + 1800000 + Z.of_nat j * 1800000) by lia.
    replace (T + Z.of_nat (S (S j)) * 1800000)
      with (T + 1800000 + Z.of_nat (S j) * 1800000) by lia.
    apply IH; [lia|].
    intros e [He|He]%in_app_iff.
    + simpl in He. intuition (subst; simpl; lia).
    + specialize (Hh e He). lia.
Qed.

End Periodic.

(** C7.  After [start()] with nothing stored (the interval defaults to
    30 minutes), [generateNewTweet] runs exactly twice in every elapsed
    interval, where the claim has exactly once: [start] calls
    [generateNewTweetLoop()] a second time on its last line, so two
    timer chains run side by side.  Eight timers fire per interval (six
    of the approved loop, two of generation), which is the fuel
    given. *)
Theorem C7_generation_runs_twice_per_interval (k j : nat) :
  (j < k)%nat ->
  generations (Z.of_nat j * 1800000) (Z.of_nat (S j) * 1800000)
    (run (8 * k) true (Z.of_nat k * 1800000) (start false None true true boot))
  = 2%nat.
Proof.
  intros Hj. destruct k as [|k]; [lia|].
  replace (8 * S k)%nat with (8 + (8 * k + 0))%nat by lia.
  rewrite first_period by lia. rewrite steady_periods by lia.
  simpl run. unfold generations, steady. simpl history.
  destruct j as [|j].
  - rewrite generated_in_periods_closed by lia. reflexivity.
  - replace (Z.of_nat (S j) * 1800000)
      with (1800000 + Z.of_nat j * 1800000) by lia.
    replace (Z.of_nat (S (S j)) * 1800000)
      with (1800000 + Z.of_nat (S j) * 1800000) by lia.
    apply generated_in_periods; [lia|].
    intros e He. simpl in He. intuition (subst; simpl; lia).
Qed.

(** The second of three intervals. *)
Lemma C7_generation_runs_twice_per_interval_witness :
  generations 1800000 3600000
    (run 24 true 5400000 (start false None true true boot)) = 2%nat.
Proof.
  apply (C7_generation_runs_twice_per_interval 3 1). lia.
Defined.

(** ** generateNewTweet *)

(** Whenever [generateNewTweet] writes a row, it posts in the same
    call: the last call it leaves is a [sendTweet] handed to the
    queue. *)
Lemma generateNewTweet_posts_what_it_saves (g : generation) (w : world) :
  tweets (generateNewTweet g w) <> tweets w ->
  exists text,
    calls (generateNewTweet g w) = mkCall (sendTweet text None false) true :: calls w
    /\ status_of (g_id g) (generateNewTweet g w) = Some Pending.
Proof.
  unfold generateNewTweet, saveTweetToDb, status_of.
  repeat case_match; simplify_eq/=; try done; intros _;
    eexists; (split; [reflexivity|]); by rewrite lookup_insert_eq.
Qed.

(** C1.  When the model answers gm and nothing fails,
    [generateNewTweet] saves the candidate as pending and, in the same
    call, posts it: the row is still pending, no approval has been
    given, and the post has left through the queue.  The claim has no
    send in [generateNewTweet]. *)
Theorem C1_generateNewTweet_posts_without_approval :
  let w := generateNewTweet Scenario.gm empty_world in
  status_of (lit "tweet-1") w = Some Pending
  /\ calls w = [mkCall (sendTweet (lit "gm") None false) true].
Proof. vm_compute. split; reflexivity. Qed.

(** ** Dispatch of an approved row *)

Section Dispatch.

Variables (tweet row : DBTweet) (w : world).
Hypothesis in_table : tweets w !! tw_id tweet = Some row.
Hypothesis not_sent : tw_status row <> Sent.

Let post : call :=
  mkCall (sendTweet (tw_content tweet) None (is_set (tw_mediaUrl tweet))) true.

(** A first dispatch posts once, through the queue. *)
Lemma dispatch_posts_once (d : delivery) :
  (is_set (tw_mediaUrl tweet) = true -> d_media_ok d = true) ->
  calls (dispatch false tweet d w).2 = post :: calls w.
Proof.
  intros Hmedia. unfold dispatch, getSentTweetById. rewrite in_table. simpl.
  destruct (is_set (tw_mediaUrl tweet)) eqn:Hm.
  - rewrite Hmedia by done. simpl.
    destruct (tw_status row) eqn:Hs; try done;
      unfold sendTweetAndUpdateCache; repeat case_match; simplify_eq/=; done.
  - simpl.
    destruct (tw_status row) eqn:Hs; try done;
      unfold sendTweetAndUpdateCache; repeat case_match; simplify_eq/=; done.
Qed.

(** Once the row is marked sent, a dispatch changes nothing. *)
Lemma dispatch_of_sent_is_noop (d : delivery) (w' : world) :
  status_of (tw_id tweet) w' = Some Sent ->
  (dispatch false tweet d w').2 = w'.
Proof.
  unfold status_of, dispatch, getSentTweetById. intros Hs.
  destruct (tweets w' !! tw_id tweet) as [r|]; [|done].
  simpl in Hs. injection Hs as Hs. simpl. rewrite Hs. simpl.
  by destruct (is_set (tw_mediaUrl tweet) && negb (d_media_ok d)).
Qed.

(** The first dispatch leaves the row marked sent when the queue
    rejects the post, or when the post is created and nothing throws
    afterwards. *)
Lemma dispatch_leaves_sent (d : delivery) :
  (is_set (tw_mediaUrl tweet) = true -> d_media_ok d = true) ->
  d_response d = Rejected
  \/ (exists rest_id, d_response d = Created rest_id) /\ d_after_ok d = true ->
  status_of (tw_id tweet) (dispatch false tweet d w).2 = Some Sent.
Proof.
  intros Hmedia Hd. unfold dispatch, getSentTweetById. rewrite in_table. simpl.
  assert (is_set (tw_mediaUrl tweet) && negb (d_media_ok d) = false) as ->.
  { destruct (is_set (tw_mediaUrl tweet)); [|done]. by rewrite Hmedia. }
  assert ((match tw_status row with Sent => true | _ => false end || false)
          = false) as ->.
  { by destruct (tw_status row). }
  unfold sendTweetAndUpdateCache, usable, status_of, markTweetAsSent,
    updateTweetStatus.
  destruct (is_set (Some (tw_id tweet)));
    destruct Hd as [->|[[rest_id ->] ->]]; simpl;
    rewrite ?lookup_alter_eq, in_table; done.
Qed.

(** Any other outcome leaves it in error. *)
Lemma dispatch_leaves_error (d : delivery) :
  (is_set (tw_mediaUrl tweet) = true -> d_media_ok d = true) ->
  tw_id tweet <> [] ->
  d_response d = Malformed \/ d_response d = Unreadable
  \/ (exists rest_id, d_response d = Created rest_id) /\ d_after_ok d = false ->
  status_of (tw_id tweet) (dispatch false tweet d w).2 = Some Error.
Proof.
  intros Hmedia Hid Hd. unfold dispatch, getSentTweetById.
  rewrite in_table. simpl.
  assert (is_set (tw_mediaUrl tweet) && negb (d_media_ok d) = false) as ->.
  { destruct (is_set (tw_mediaUrl tweet)); [|done]. by rewrite Hmedia. }
  assert ((match tw_status row with Sent => true | _ => false end || false)
          = false) as ->.
  { by destruct (tw_status row). }
  assert (is_set (Some (tw_id tweet)) = true) as Hset.
  { by destruct (tw_id tweet). }
  unfold sendTweetAndUpdateCache, usable, status_of, markTweetAsSent,
    markTweetAsError, updateTweetStatus.
  rewrite Hset.
  destruct Hd as [->|[->|[[rest_id ->] ->]]]; simpl;
    rewrite ?lookup_alter_eq, in_table; done.
Qed.

(** A dispatch that does not post leaves the world as it was. *)
Lemma dispatch_without_post (dry_run : bool) (d : delivery) :
  dry_run = true
  \/ is_set (tw_mediaUrl tweet) && negb (d_media_ok d) = true ->
  (dispatch dry_run tweet d w).2 = w.
Proof.
  unfold dispatch. intros [->| ->]; [done|]. by destruct dry_run.
Qed.

(** C2, as amended.  For a row of the table that is not marked sent:
    when the first dispatch leaves the row marked sent, two dispatches
    of the row make exactly one post, through the queue, and the second
    changes nothing. *)
Theorem C2_dispatch_twice_posts_once (dry_run : bool) (d1 d2 : delivery) :
  let w1 := (dispatch dry_run tweet d1 w).2 in
  let w2 := (dispatch dry_run tweet d2 w1).2 in
  status_of (tw_id tweet) w1 = Some Sent ->
  calls w2 = post :: calls w /\ w2 = w1.
Proof.
  intros w1 w2 Hsent.
  assert (status_of (tw_id tweet) w <> Some Sent) as Hbefore.
  { unfold status_of. rewrite in_table. simpl. congruence. }
  destruct dry_run.
  { exfalso. apply Hbefore. by rewrite <- Hsent. }
  destruct (is_set (tw_mediaUrl tweet) && negb (d_media_ok d1)) eqn:Hmedia.
  { exfalso. apply Hbefore. rewrite <- Hsent. unfold w1.
    by rewrite dispatch_without_post by (by right). }
  assert (w2 = w1) as Hnoop by (by apply dispatch_of_sent_is_noop).
  split; [|done]. rewrite Hnoop. apply dispatch_posts_once.
  intros Hset. rewrite Hset in Hmedia. by destruct (d_media_ok d1).
Qed.

End Dispatch.

(** A row whose first post is created: the second dispatch finds it
    sent. *)
Lemma C2_dispatch_twice_posts_once_witness :
  let w1 := (dispatch false Scenario.approved_row Scenario.delivered
               Scenario.table).2 in
  let w2 := (dispatch false Scenario.approved_row Scenario.delivered w1).2 in
  status_of (lit "tweet-1") w1 = Some Sent
  /\ calls w2 = [mkCall (sendTweet (lit "gm") None false) true] /\ w2 = w1.
Proof.
  split; [reflexivity|].
  apply (C2_dispatch_twice_posts_once Scenario.approved_row
           Scenario.approved_row Scenario.table);
    [reflexivity | discriminate | reflexivity].
Defined.

(** C2 as stated fails: when the answer to the first post is malformed
    the row is put in error, the check for a sent row does not see it,
    and the second dispatch posts again. *)
Lemma C2_second_dispatch_posts_again_after_error :
  let w1 := (dispatch false Scenario.approved_row Scenario.malformed
               Scenario.table).2 in
  let w2 := (dispatch false Scenario.approved_row Scenario.delivered w1).2 in
  status_of (lit "tweet-1") w1 = Some Error
  /\ length (calls w2) = 2%nat
  /\ ~ (length (calls w2) = 1%nat /\ w2 = w1).
Proof.
  vm_compute. repeat split. intros [H _]. discriminate.
Qed.

(** ** Actions on a tweet *)

Section ActionFailures.

Variables (tweet : Tweet) (p : processing) (w : world).
Variable actionResponse : ActionResponse.
Hypothesis fresh : memories w !! t_id tweet = None.
Hypothesis decided : p_decision p = Decided actionResponse.

(** The quote is decided, its context is built and the content
    generated for it is empty: the loop body returns from
    [processTweetActions].  Whatever else was decided, no post is made,
    no memory is created and no result is pushed. *)
Lemma empty_quote_content_returns :
  a_quote actionResponse = true ->
  p_quote_context_ok p = true ->
  p_quote_content p = Some [] ->
  exists w',
    process_tweet tweet p w = (Returns, None, w')
    /\ memories w' = memories w
    /\ forallb (fun c => negb (is_post (req c))) (calls w') 
       = forallb (fun c => negb (is_post (req c))) (calls w).
Proof.
  intros Hq Hctx Hcontent. unfold process_tweet. rewrite fresh, decided, Hq.
  unfold do_quote. rewrite Hctx, Hcontent. simpl.
  eexists. split; [reflexivity|].
  unfold do_like, do_retweet.
  by destruct (a_like actionResponse), (a_retweet actionResponse),
    (p_like_ok p), (p_retweet_ok p).
Qed.

(** Like, retweet and reply are decided, the like and the retweet
    succeed, and the content of the reply cannot be generated, by a
    throw or by an empty result.  Unless an empty quote has ended the
    pass before, the tweet is completed: the like and the retweet are
    among the executed actions of the result and of the memory, the
    reply is not. *)
Lemma reply_failure_is_isolated :
  a_like actionResponse = true ->
  a_retweet actionResponse = true ->
  a_reply actionResponse = true ->
  p_like_ok p = true ->
  p_retweet_ok p = true ->
  p_record_ok p = true ->
  p_reply_content p = None \/ p_reply_content p = Some [] ->
  (a_quote actionResponse = true -> p_quote_context_ok p = true ->
   p_quote_content p <> Some []) ->
  exists executed w',
    process_tweet tweet p w
    = (Continues, Some (mkResult (t_id tweet) actionResponse executed), w')
    /\ memories w' !! t_id tweet
       = Some (mkMemory (t_text tweet) (Some executed))
    /\ In Like executed /\ In Retweet executed /\ ~ In Reply executed
    /\ In (mkCall (likeTweet (t_id tweet)) false) (calls w')
    /\ In (mkCall (retweet (t_id tweet)) false) (calls w').
Proof.
  intros Hl Hr Hreply Hlok Hrok Hrec Hcontent Hquote.
  unfold process_tweet. rewrite fresh, decided, Hl, Hr, Hreply.
  unfold do_like, do_retweet. rewrite Hlok, Hrok, Hrec. simpl.
  assert (handleTextOnlyReply tweet p = fun st => st) as ->.
  { unfold handleTextOnlyReply.
    destruct (p_reply_context_ok p); [|done]. simpl.
    by destruct Hcontent as [->| ->]. }
  assert (forall executed w',
            In Like executed -> In Retweet executed -> ~ In Reply executed ->
            In (mkCall (likeTweet (t_id tweet)) false) (calls w') ->
            In (mkCall (retweet (t_id tweet)) false) (calls w') ->
            let w'' := createMemory (t_id tweet)
                         (mkMemory (t_text tweet) (Some executed)) w' in
            memories w'' !! t_id tweet
            = Some (mkMemory (t_text tweet) (Some executed))
            /\ In Like executed /\ In Retweet executed /\ ~ In Reply executed
            /\ In (mkCall (likeTweet (t_id tweet)) false) (calls w'')
            /\ In (mkCall (retweet (t_id tweet)) false) (calls w''))
    as Hdone.
  { intros executed w' ? ? ? ? ?. simpl. by rewrite lookup_insert_eq. }
  unfold do_quote.
  destruct (a_quote actionResponse); simpl;
    [destruct (p_quote_context_ok p) eqn:Hctx; simpl;
     [destruct (p_quote_content p) as [[|c s]|] eqn:Hc; simpl;
      [by destruct Hquote|destruct (p_quote_response p); simpl|]|]|];
    do 2 eexists; (split; [reflexivity|]); apply Hdone; simpl;
    intuition (try discriminate; auto).
Qed.

End ActionFailures.

(** C3.  All four actions are decided for tweet 42 and the content
    generated for the quote is empty: [processTweetActions] returns
    there and then.  The like and the retweet were made, but the reply,
    which would have been generated and posted, is not attempted, no
    memory records the tweet as processed, the next tweet of the
    timeline is not looked at, and the caller gets no results.  The
    claim has only the quote abandoned. *)
Theorem C3_empty_quote_content_abandons_the_pass :
  let '(outcome, w) :=
    processTweetActions
      (Some [(Scenario.tweet42, Scenario.quote_comes_empty);
             (Scenario.tweet43, Scenario.like_only)]) empty_world in
  outcome = ReturnedEarly
  /\ calls w = [mkCall (retweet (lit "42")) false;
                mkCall (likeTweet (lit "42")) false]
  /\ memories w !! lit "42" = None
  /\ isProcessing w = false.
Proof. vm_compute. repeat split. Qed.

(** With the same inputs but a reply whose content comes empty, only
    the reply is abandoned. *)
Example empty_reply_content_abandons_the_reply_only :
  let p := mkProcessing (Decided (mkActions true true false true)) true true
             true None Malformed true (Some []) Malformed true in
  let '(outcome, w) :=
    processTweetActions (Some [(Scenario.tweet42, p)]) empty_world in
  outcome = Completed [mkResult (lit "42") (mkActions true true false true)
                                [Like; Retweet]]
  /\ mem_action <$> memories w !! lit "42" = Some (Some [Like; Retweet]).
Proof. vm_compute. repeat split. Qed.

(** ** Routing of the calls *)

Section Routing.

Lemma calls_routed_refl w : calls_routed w w.
Proof. by exists []. Qed.

Lemma calls_routed_trans w1 w2 w3 :
  calls_routed w1 w2 -> calls_routed w2 w3 -> calls_routed w1 w3.
Proof.
  intros (n1 & H1 & F1) (n2 & H2 & F2). exists (n2 ++ n1). split.
  - by rewrite H2, H1, app_assoc.
  - by rewrite forallb_app, F1, F2.
Qed.

Lemma calls_routed_same w w' : calls w' = calls w -> calls_routed w w'.
Proof. intros H. by exists []. Qed.

Lemma calls_routed_submit r w :
  is_post r = true -> calls_routed w (submit r w).
Proof. intros H. exists [mkCall r true]. split; [done|]. simpl. unfold routed. simpl. by rewrite H. Qed.

Lemma calls_routed_direct r w :
  is_post r = false -> calls_routed w (direct r w).
Proof. intros H. exists [mkCall r false]. split; [done|]. simpl. unfold routed. simpl. by rewrite H. Qed.

(** The calls added are at most four, each a constructor applied. *)
Ltac routing :=
  unfold calls_routed; simpl;
  first [ exists []; split; reflexivity
        | eexists [_]; split; reflexivity
        | eexists [_; _]; split; reflexivity
        | eexists [_; _; _]; split; reflexivity
        | eexists [_; _; _; _]; split; reflexivity ].

Lemma generateNewTweet_routed g w : calls_routed w (generateNewTweet g w).
Proof.
  unfold generateNewTweet, saveTweetToDb.
  repeat case_match; simplify_eq/=; routing.
Qed.

Lemma dispatch_routed dry_run tweet d w :
  calls_routed w (dispatch dry_run tweet d w).2.
Proof.
  unfold dispatch, sendTweetAndUpdateCache.
  repeat case_match; simplify_eq/=; routing.
Qed.

Lemma checkAndSendApprovedTweets_routed dry_run result w :
  calls_routed w (checkAndSendApprovedTweets dry_run result w).
Proof.
  revert w. induction result as [|[tweet d] rest IH]; intros w; simpl.
  - apply calls_routed_refl.
  - pose proof (dispatch_routed dry_run tweet d w) as Hd.
    destruct (dispatch dry_run tweet d w) as [[|] w']; simpl in Hd.
    + eapply calls_routed_trans; [exact Hd|apply IH].
    + exact Hd.
Qed.

Lemma process_tweet_routed tweet p w :
  calls_routed w (process_tweet tweet p w).2.
Proof.
  unfold process_tweet, do_like, do_retweet, do_quote, handleTextOnlyReply.
  repeat case_match; simplify_eq/=; routing.
Qed.

Lemma process_timeline_routed tl results w :
  calls_routed w (process_timeline tl results w).2.
Proof.
  revert results w. induction tl as [|[tweet p] rest IH]; intros results w; simpl.
  - apply calls_routed_refl.
  - pose proof (process_tweet_routed tweet p w) as Hp.
    destruct (process_tweet tweet p w) as [[[|] r] w']; simpl in Hp.
    + eapply calls_routed_trans; [exact Hp|apply IH].
    + exact Hp.
Qed.

Lemma processTweetActions_routed tl w :
  calls_routed w (processTweetActions tl w).2.
Proof.
  unfold processTweetActions.
  destruct (isProcessing w); [apply calls_routed_refl|].
  destruct tl as [tl|]; [|by apply calls_routed_same].
  pose proof (process_timeline_routed tl [] (with_processing true w)) as Hp.
  destruct (process_timeline tl [] (with_processing true w)) as [r w2].
  simpl in *. destruct Hp as (new & Hc & Hf). by exists new.
Qed.

End Routing.

(** C4, as amended.  In the generation, in the check of the approved
    tweets and in the processing of actions, every call added is routed
    as its kind is: a post ([sendTweet], [sendQuoteTweet]) is handed to
    the request queue, a like or a retweet is made in place. *)
Theorem C4_posts_leave_through_the_queue :
  (forall g w, calls_routed w (generateNewTweet g w))
  /\ (forall dry_run result w,
        calls_routed w (checkAndSendApprovedTweets dry_run result w))
  /\ (forall homeTimeline w,
        calls_routed w (processTweetActions homeTimeline w).2).
Proof.
  split; [|split].
  - apply generateNewTweet_routed.
  - apply checkAndSendApprovedTweets_routed.
  - apply processTweetActions_routed.
Qed.

(** C4 as stated fails: the like decided for a tweet is made by a call
    of the client in place, not through the queue. *)
Lemma C4_like_bypasses_the_queue :
  let w := (processTweetActions
              (Some [(Scenario.tweet42, Scenario.like_only)]) empty_world).2 in
  calls w = [mkCall (likeTweet (lit "42")) false]
  /\ ~ Forall (fun c => queued c = true) (calls w).
Proof.
  vm_compute. split; [reflexivity|].
  intros H. inversion H. discriminate.
Qed.

(** * Further properties *)

(** ** Cuts of the two truncation helpers *)

Section Cuts.

Implicit Types (s text : jsstring) (c : char).

Lemma len_trim_start s : (length (trim_start s) <= length s)%nat.
Proof.
  induction s as [|c s IH]; simpl; [lia|]. destruct (is_space c); simpl; lia.
Qed.

Lemma len_trim s : len (trim s) <= len s.
Proof.
  unfold len, trim, trim_end. rewrite length_rev.
  pose proof (len_trim_start (rev (trim_start s))) as H1.
  pose proof (len_trim_start s) as H2.
  rewrite length_rev in H1. lia.
Qed.

Lemma len_slice_prefix s e : 0 <= e -> len (slice s 0 e) <= e.
Proof.
  intros He. unfold slice, clamp_index, len. simpl.
  destruct (Z.ltb_spec e 0); [lia|].
  rewrite length_take. lia.
Qed.

(** What the downward scan returns: -1 when nothing matches up to the
    start, else the last match up to the start. *)
Lemma last_match_from_spec c s k :
  (last_match_from s [c] k = -1
   /\ forall i, (i <= k)%nat -> s !! i <> Some c)
  \/ exists j, last_match_from s [c] k = Z.of_nat j /\ (j <= k)%nat
               /\ s !! j = Some c
               /\ forall i, (j < i <= k)%nat -> s !! i <> Some c.
Proof.
  induction k as [|k IH].
  - rewrite last_match_from_0.
    destruct (starts_with [c] (drop 0 s)) eqn:E.
    + right. exists 0%nat. apply starts_with_single in E.
      repeat split; [lia|done|]. intros i Hi. lia.
    + left. split; [done|]. intros i Hi Hc. assert (i = 0%nat) as -> by lia.
      apply starts_with_single in Hc. congruence.
  - rewrite last_match_from_S.
    destruct (starts_with [c] (drop (S k) s)) eqn:E.
    + right. exists (S k). apply starts_with_single in E.
      repeat split; [lia|done|]. intros i Hi. lia.
    + assert (s !! S k <> Some c) as Hk.
      { intros Hc. apply starts_with_single in Hc. congruence. }
      destruct IH as [[-> Hno]|(j & -> & Hj & Hat & Hno)].
      * left. split; [done|]. intros i Hi.
        destruct (decide (i = S k)) as [->|]; [done|]. apply Hno. lia.
      * right. exists j. repeat split; [lia|done|]. intros i Hi.
        destruct (decide (i = S k)) as [->|]; [done|]. apply Hno. lia.
Qed.

(** [lastIndexOf] of one code unit from a position inside the string:
    the last occurrence at or before the position, if there is one. *)
Lemma lastIndexOf_spec c s pos :
  0 <= pos < len s ->
  (lastIndexOf s [c] (Some pos) = -1
   /\ forall i, Z.of_nat i <= pos -> s !! i <> Some c)
  \/ exists j, lastIndexOf s [c] (Some pos) = Z.of_nat j
               /\ Z.of_nat j <= pos /\ s !! j = Some c
               /\ forall i, (j < i)%nat -> Z.of_nat i <= pos ->
                            s !! i <> Some c.
Proof.
  intros Hpos. unfold lastIndexOf, len in *. simpl length.
  destruct (Z.ltb_spec (Z.of_nat (length s)) (Z.of_nat 1)); [lia|].
  simpl default.
  destruct (last_match_from_spec c s
              (Z.to_nat (Z.min (Z.max pos 0)
                               (Z.of_nat (length s) - Z.of_nat 1))))
    as [[-> Hno]|(j & -> & Hj & Hat & Hno)].
  - left. split; [done|]. intros i Hi. apply Hno. lia.
  - right. exists j. repeat split; [lia|done|]. intros i Hi Hi'.
    apply Hno. lia.
Qed.

Lemma lastIndexOf_no_position c s :
  0 < len s -> lastIndexOf s [c] None = lastIndexOf s [c] (Some (len s - 1)).
Proof.
  intros Hs. unfold lastIndexOf. simpl default.
  destruct (len s <? len [c]); [done|]. f_equal.
  unfold len in *. simpl. lia.
Qed.

Lemma len_app (s t : jsstring) : len (s ++ t) = len s + len t.
Proof. unfold len. rewrite length_app. lia. Qed.

End Cuts.

(** X1.  [truncateToCompleteSentence] on a text longer than the limit
    that starts with no white space and has a period at or before the
    offset [limit]: the result is the text up to and including the last
    such period.  It is a prefix of the text, it ends in a period, and
    it has at most [limit + 1] code units. *)
Theorem X1_truncate_cuts_at_last_period
    (text : jsstring) (limit : Z) (j : nat) :
  0 <= limit -> limit < len text ->
  Z.of_nat j <= limit -> text !! j = Some 46%N ->
  (forall c, head text = Some c -> is_space c = false) ->
  exists k, (j <= k)%nat /\ Z.of_nat k <= limit /\ text !! k = Some 46%N
            /\ truncateToCompleteSentence text limit = take (S k) text
            /\ len (truncateToCompleteSentence text limit) <= limit + 1.
Proof.
  intros Hlimit Hlong Hj Hat Hhead.
  destruct (lastIndexOf_spec 46%N text limit ltac:(lia))
    as [[_ Hno]|(k & _ & Hk & Hatk & Hno)].
  { by destruct (Hno j Hj). }
  assert (j <= k)%nat as Hjk.
  { destruct (decide (j <= k)%nat) as [|Hlt]; [done|].
    destruct (Hno j ltac:(lia) Hj Hat). }
  assert (truncateToCompleteSentence text limit = take (S k) text) as Heq.
  { by apply truncate_at_period. }
  exists k. repeat split; try done.
  rewrite Heq. unfold len. rewrite length_take. lia.
Qed.

(** A period at offset 3 with a limit of 3: four code units come back. *)
Lemma X1_truncate_cuts_at_last_period_witness :
  exists k, (3 <= k)%nat /\ Z.of_nat k <= 3 /\ lit "abc.de" !! k = Some 46%N
            /\ truncateToCompleteSentence (lit "abc.de") 3
               = take (S k) (lit "abc.de")
            /\ len (truncateToCompleteSentence (lit "abc.de") 3) <= 3 + 1.
Proof.
  apply (X1_truncate_cuts_at_last_period (lit "abc.de") 3 3);
    [lia | vm_compute; reflexivity | lia | reflexivity
    | intros c [= <-]; reflexivity].
Defined.

(** X2.  [truncateToCompleteSentence] on a text longer than a limit of
    at least 3 that has a space at or before the offset [limit]: the
    result has at most [limit + 3] code units.  The ellipsis is added
    to a cut made at the limit, so the result can be longer than the
    limit by up to three. *)
Theorem X2_truncate_with_space_is_bounded
    (text : jsstring) (limit : Z) (j : nat) :
  3 <= limit -> limit < len text ->
  Z.of_nat j <= limit -> text !! j = Some 32%N ->
  len (truncateToCompleteSentence text limit) <= limit + 3.
Proof.
  intros Hlimit Hlong Hj Hat. unfold truncateToCompleteSentence.
  destruct (Z.leb_spec (len text) limit); [lia|].
  change (lit ".") with [46%N]. change (lit " ") with [32%N].
  change (len (lit "...")) with 3.
  assert (lastIndexOf text [46%N] (Some limit) <= limit) as Hp.
  { destruct (lastIndexOf_spec 46%N text limit ltac:(lia))
      as [[-> _]|(k & -> & Hk & _)]; lia. }
  assert (0 <= lastIndexOf text [32%N] (Some limit) <= limit) as Hs.
  { destruct (lastIndexOf_spec 32%N text limit ltac:(lia))
      as [[_ Hno]|(k & -> & Hk & _)]; [|lia]. by destruct (Hno j Hj). }
  assert (-1 <= lastIndexOf text [46%N] (Some limit)) as Hp'.
  { destruct (lastIndexOf_spec 46%N text limit ltac:(lia))
      as [[-> _]|(k & -> & Hk & _)]; lia. }
  pose proof (len_trim (slice text 0 (lastIndexOf text [46%N] (Some limit) + 1))).
  pose proof (len_slice_prefix text (lastIndexOf text [46%N] (Some limit) + 1)
                ltac:(lia)).
  pose proof (len_trim (slice text 0 (lastIndexOf text [32%N] (Some limit)))).
  pose proof (len_slice_prefix text (lastIndexOf text [32%N] (Some limit))
                ltac:(lia)).
  pose proof (len_trim (slice text 0 (limit - 3))).
  pose proof (len_slice_prefix text (limit - 3) ltac:(lia)).
  repeat case_match; rewrite ?len_app; change (len (lit "...")) with 3; lia.
Qed.

(** A space at offset 3 with a limit of 3: six code units come back. *)
Lemma X2_truncate_with_space_is_bounded_witness :
  len (truncateToCompleteSentence (lit "aaa bbb") 3) <= 3 + 3
  /\ len (truncateToCompleteSentence (lit "aaa bbb") 3) = 6.
Proof.
  split; [|reflexivity].
  apply (X2_truncate_with_space_is_bounded (lit "aaa bbb") 3 3);
    [lia | vm_compute; reflexivity | lia | reflexivity].
Defined.

(** X3.  [trimTweetLength] on a text longer than [maxLength] that starts
    with no white space and has a period at an offset above 0 and below
    [maxLength]: the result is the text up to and including the last
    such period, at most [maxLength] code units. *)
Theorem X3_trimTweetLength_cuts_at_last_period
    (text : jsstring) (maxLength : Z) (j : nat) :
  maxLength < len text ->
  (0 < j)%nat -> Z.of_nat j < maxLength -> text !! j = Some 46%N ->
  (forall c, head text = Some c -> is_space c = false) ->
  exists k, (j <= k)%nat /\ Z.of_nat k < maxLength /\ text !! k = Some 46%N
            /\ trimTweetLength text maxLength = take (S k) text
            /\ len (trimTweetLength text maxLength) <= maxLength.
Proof.
  intros Hlong Hj0 Hj Hat Hhead.
  assert (trimTweetLength text maxLength
          = let lastSentence :=
              lastIndexOf (take (Z.to_nat maxLength) text) [46%N] None in
            if 0 <? lastSentence then trim (slice text 0 (lastSentence + 1))
            else trim (slice text 0
                         (lastIndexOf text [32%N] (Some (maxLength - 3))))
                 ++ lit "...") as ->.
  { unfold trimTweetLength.
    destruct (Z.leb_spec (len text) maxLength); [lia|].
    by rewrite slice_prefix by lia. }
  set (t := take (Z.to_nat maxLength) text).
  assert (len t = maxLength) as Hlen.
  { unfold t, len in *. rewrite length_take. lia. }
  assert (forall i, Z.of_nat i < maxLength -> t !! i = text !! i) as Hlook.
  { intros i Hi. unfold t. apply lookup_take_lt. lia. }
  simpl. rewrite lastIndexOf_no_position by lia.
  destruct (lastIndexOf_spec 46%N t (len t - 1) ltac:(lia))
    as [[_ Hno]|(k & -> & Hk & Hatk & Hno)].
  { destruct (Hno j ltac:(lia)). by rewrite Hlook. }
  assert (j <= k)%nat as Hjk.
  { destruct (decide (j <= k)%nat) as [|Hlt]; [done|].
    destruct (Hno j ltac:(lia) ltac:(lia)). by rewrite Hlook. }
  rewrite Hlook in Hatk by lia.
  destruct (Z.ltb_spec 0 (Z.of_nat k)); [|lia].
  assert (S k <= length text)%nat as Hin.
  { apply lookup_lt_Some in Hatk. lia. }
  rewrite slice_prefix by (unfold len; lia).
  replace (Z.to_nat (Z.of_nat k + 1)) with (S k) by lia.
  assert (trim (take (S k) text) = take (S k) text) as ->.
  { apply trim_ends.
    - intros c Hc. apply Hhead. destruct text; simpl in *; congruence.
    - intros c. rewrite last_take, Hatk by lia. by intros [= <-]. }
  exists k. repeat split; try done; [lia|].
  unfold len. rewrite length_take. lia.
Qed.

Lemma X3_trimTweetLength_cuts_at_last_period_witness :
  exists k, (2 <= k)%nat /\ Z.of_nat k < 5 /\ lit "ab.d.fgh" !! k = Some 46%N
            /\ trimTweetLength (lit "ab.d.fgh") 5 = take (S k) (lit "ab.d.fgh")
            /\ len (trimTweetLength (lit "ab.d.fgh") 5) <= 5.
Proof.
  apply (X3_trimTweetLength_cuts_at_last_period (lit "ab.d.fgh") 5 2);
    [vm_compute; reflexivity | lia | lia | reflexivity
    | intros c [= <-]; reflexivity].
Defined.

(** ** Extraction of a member of the response *)

Section Parsing.

Import Payload.

Lemma replace_global_untouched (match_at : jsstring -> option nat)
    (by_ : jsstring) (P : char -> Prop) (s : jsstring) :
  (forall c t, P c -> match_at (c :: t) = None) ->
  Forall P s ->
  replace_global match_at by_ 0 s = s.
Proof.
  intros Hnone. induction 1 as [|c s Hc _ IH]; [done|].
  simpl. rewrite Hnone by done. by rewrite IH.
Qed.

Lemma starts_with_other_head (c0 c : char) (l t : jsstring) :
  c <> c0 -> starts_with (c0 :: l) (c :: t) = false.
Proof. intros Hc. simpl. apply andb_false_intro1. apply N.eqb_neq. congruence. Qed.

Lemma plain_char_spec c :
  plain_char c = true ->
  (32 <= c)%N /\ c <> 34%N /\ c <> 92%N /\ c <> 96%N.
Proof.
  unfold plain_char. rewrite !andb_true_iff, !negb_true_iff.
  rewrite N.leb_le, !N.eqb_neq. tauto.
Qed.

(** A text without back quote or backslash, between a brace and a
    brace, is its own cleaned response. *)
Lemma cleanedResponse_untouched (s : jsstring) :
  Forall (fun c => c <> 96%N /\ c <> 92%N) s ->
  cleanedResponse (123%N :: s ++ [125%N]) = 123%N :: s ++ [125%N].
Proof.
  intros Hs. unfold cleanedResponse, unescape_newlines.
  assert (Forall (fun c => c <> 96%N /\ c <> 92%N) (123%N :: s ++ [125%N]))
    as Hall.
  { constructor; [done|]. apply Forall_app. split; [done|].
    by constructor. }
  set (P := fun c : N => c <> 96%N /\ c <> 92%N) in *.
  assert (forall l by_ t, Forall P t ->
            replace_global (match_lit_spaces (96%N :: l)) by_ 0 t = t)
    as Hfence.
  { intros l by_ t Ht. apply (replace_global_untouched _ _ P); [|done].
    intros c u [Hc _]. unfold match_lit_spaces.
    by rewrite starts_with_other_head. }
  assert (forall l by_ t, Forall P t ->
            replace_global (match_lit (92%N :: l)) by_ 0 t = t)
    as Hslash.
  { intros l by_ t Ht. apply (replace_global_untouched _ _ P); [|done].
    intros c u [_ Hc]. unfold match_lit.
    by rewrite starts_with_other_head. }
  change (lit "```json") with (96%N :: lit "``json").
  change (lit "```") with (96%N :: lit "``").
  change (lit "\n") with (92%N :: lit "n").
  rewrite (Hfence _ _ _ Hall), (Hfence _ _ _ Hall), (Hslash _ _ _ Hall).
  by apply trim_keeps.
Qed.

(** Inside a string literal, plain code units are read as they are up
    to the closing quote. *)
Lemma lex_plain_string (s acc rest : jsstring) :
  Forall (fun c => plain_char c = true) s ->
  Json.lex (Json.MStr acc) (s ++ 34%N :: rest)
  = (fun r => Json.TString (rev acc ++ s) :: r) <$> Json.lex Json.MTop rest.
Proof.
  intros Hs. revert acc. induction Hs as [|c s Hc _ IH]; intros acc.
  - simpl. by rewrite app_nil_r.
  - apply plain_char_spec in Hc as (H32 & H34 & H92 & _).
    cbn [app Json.lex].
    assert ((c =? 34)%N = false) as -> by (by apply N.eqb_neq).
    assert ((c =? 92)%N = false) as -> by (by apply N.eqb_neq).
    assert ((c <? 32)%N = false) as -> by (apply N.ltb_ge; lia).
    rewrite IH. simpl. by rewrite <- app_assoc.
Qed.

Lemma lex_top (c : char) (toks : list Json.token) (m : Json.mode)
    (rest : jsstring) :
  Json.start c = Some (toks, m) ->
  Json.lex Json.MTop (c :: rest)
  = (fun r => toks ++ r) <$> Json.lex m rest.
Proof. intros H. cbn [Json.lex]. by rewrite H. Qed.

Lemma content_keys_plain (key : jsstring) :
  In key content_keys -> Forall (fun c => plain_char c = true) key.
Proof.
  intros [<-|[<-|[<-|[<-|[]]]]]; repeat (constructor; [reflexivity|]);
    constructor.
Qed.

Lemma single_member_units (key s : jsstring) :
  single_member key s
  = 123%N :: 34%N :: key ++ 34%N :: 58%N :: 34%N :: s ++ [34%N; 125%N].
Proof. reflexivity. Qed.

(** [JSON.parse] of an object with a single member whose key is one of
    the four and whose string is plain. *)
Lemma parse_single_member (key s : jsstring) :
  In key content_keys ->
  Forall (fun c => plain_char c = true) s ->
  Json.parse (single_member key s) = Some (Json.Obj [(key, Json.Str s)]).
Proof.
  intros Hkey Hs. apply content_keys_plain in Hkey.
  unfold Json.parse. rewrite single_member_units.
  rewrite (lex_top 123 [Json.TLBrace] Json.MTop) by reflexivity.
  rewrite (lex_top 34 [] (Json.MStr [])) by reflexivity.
  rewrite (lex_plain_string key [] _ Hkey).
  rewrite (lex_top 58 [Json.TColon] Json.MTop) by reflexivity.
  rewrite (lex_top 34 [] (Json.MStr [])) by reflexivity.
  rewrite (lex_plain_string s [] _ Hs).
  rewrite (lex_top 125 [Json.TRBrace] Json.MTop) by reflexivity.
  reflexivity.
Qed.

End Parsing.

Lemma truthy_string (s : jsstring) :
  s <> [] -> Json.truthy (Json.Str s) = true.
Proof. by destruct s. Qed.

Section Members.

Import Payload.

Variables (key s : jsstring).
Hypothesis known_key : In key content_keys.
Hypothesis not_empty : s <> [].
Hypothesis plain : Forall (fun c => plain_char c = true) s.

Lemma single_member_cleaned :
  cleanedResponse (single_member key s) = single_member key s.
Proof using known_key plain.
  assert (single_member key s
          = 123%N :: (34%N :: key ++ 34%N :: 58%N :: 34%N :: s ++ [34%N])
                  ++ [125%N]) as ->.
  { rewrite single_member_units. simpl. do 2 f_equal.
    rewrite <- !app_assoc. simpl. do 4 f_equal.
    by rewrite <- app_assoc. }
  apply cleanedResponse_untouched.
  assert (forall t, Forall (fun c => plain_char c = true) t ->
            Forall (fun c => c <> 96%N /\ c <> 92%N) t) as Himp.
  { intros t Ht. eapply Forall_impl; [exact Ht|]. intros c Hc.
    apply plain_char_spec in Hc. tauto. }
  constructor; [split; discriminate|].
  apply Forall_app. split; [by apply Himp, content_keys_plain|].
  do 3 (constructor; [split; discriminate|]).
  apply Forall_app. split; [by apply Himp|].
  constructor; [split; discriminate|]. constructor.
Qed.


Lemma generateTweetContent_member :
  generateTweetContent (single_member key s) = Text (trimTweetLength s 280).
Proof using known_key not_empty plain.
  unfold generateTweetContent.
  rewrite single_member_cleaned, parse_single_member by done.
  pose proof (truthy_string s not_empty) as Ht.
  simpl in known_key.
  unfold Json.is_object, Json.get.
  destruct known_key as [<-|[<-|[<-|[<-|[]]]]];
    cbn [Json.member]; repeat (case_decide; [try discriminate|try done]);
    unfold or_else; rewrite ?Ht; reflexivity.
Qed.

End Members.

(** X4. When the model answers with an object of one member whose key
    is [text], [content], [message] or [response] and whose value is a
    non-empty string of plain characters, [generateTweetContent]
    returns that string, cut by [trimTweetLength] at 280: the braces,
    the key and the quotes are gone. *)
Theorem X4_generateTweetContent_extracts_the_member (key s : jsstring) :
  In key Payload.content_keys ->
  s <> [] ->
  Forall (fun c => Payload.plain_char c = true) s ->
  generateTweetContent (Payload.single_member key s)
  = Text (trimTweetLength s 280).
Proof. intros. by apply generateTweetContent_member. Qed.

Lemma X4_generateTweetContent_extracts_the_member_witness :
  generateTweetContent (Payload.single_member (lit "message") (lit "gm"))
  = Text (lit "gm").
Proof.
  apply (X4_generateTweetContent_extracts_the_member (lit "message") (lit "gm")).
  - simpl. tauto.
  - discriminate.
  - repeat constructor.
Defined.

(** X5. The clean-up block of [generateNewTweet] reads only the member
    [text]: from an object whose single member is [text] with a
    non-empty plain string it takes the string as it is, and from an
    object whose single member has one of the three other keys it takes
    the empty string, on which [generateNewTweet] gives up. *)
Theorem X5_cleanedContent_reads_text_only (key s : jsstring) :
  In key Payload.content_keys ->
  s <> [] ->
  Forall (fun c => Payload.plain_char c = true) s ->
  cleanedContent (Payload.single_member key s)
  = if decide (key = lit "text") then Text s else Text [].
Proof.
  intros Hkey Hne Hs. unfold cleanedContent.
  rewrite parse_single_member by done.
  pose proof (truthy_string s Hne) as Ht.
  simpl in Hkey.
  unfold Json.get.
  destruct Hkey as [<-|[<-|[<-|[<-|[]]]]];
    cbn [Json.member]; repeat (case_decide; [try discriminate|try done]);
    rewrite ?Ht; reflexivity.
Qed.

Lemma X5_cleanedContent_reads_text_only_witness :
  cleanedContent (Payload.single_member (lit "content") (lit "gm")) = Text [].
Proof.
  apply (X5_cleanedContent_reads_text_only (lit "content") (lit "gm")).
  - simpl. tauto.
  - discriminate.
  - repeat constructor.
Defined.

(** ** Schedule: any settings, any stored interval *)



(** The delay [setTimeout] arms for what [getPostInterval] returned. *)
Lemma setTimeout_timers (c : callback) (delay : option Z) (l : loop) :
  exists d, 1 <= d <= 2147483647
    /\ setTimeout c delay l
       = mkLoop (clock l) (timers l ++ [mkTimer (clock l + d) c])
                (tweet_interval l) (history l).
Proof.
  unfold setTimeout. destruct delay as [n|]; [|exists 1; split; [lia|done]].
  destruct (Z.leb_spec 1 n); destruct (Z.leb_spec n 2147483647); simpl;
    [exists n|exists 1..]; (split; [lia|done]).
Qed.

(** X7. Whatever the store holds and whether or not it answers,
    [generateNewTweetLoop] arms exactly one more timer, for the
    generation callback, between 1 ms and 2^31 - 1 ms from now; it
    moves neither the clock nor the history, and behind it the stored
    interval is set whenever the store answered. *)
Theorem X7_generateNewTweetLoop_arms_one_timer (store_ok : bool) (l : loop) :
  let l' := generateNewTweetLoop store_ok l in
  (exists d, 1 <= d <= 2147483647
     /\ timers l' = timers l ++ [mkTimer (clock l + d) GenerateTimeout])
  /\ clock l' = clock l
  /\ history l' = history l
  /\ (store_ok = true -> is_set (tweet_interval l') = true)
  /\ (is_set (tweet_interval l) = true -> tweet_interval l' = tweet_interval l).
Proof.
  unfold generateNewTweetLoop, getPostInterval.
  destruct store_ok.
  - destruct (is_set (tweet_interval l)) eqn:Hset.
    + destruct (setTimeout_timers GenerateTimeout
                  ((fun n => n * 60 * 1000)
                     <$> parseInt (default (lit "30") (tweet_interval l))) l)
        as (d & Hd & ->).
      simpl. repeat split; try done. by exists d.
    + set (l1 := mkLoop _ _ _ _).
      destruct (setTimeout_timers GenerateTimeout
                  ((fun n => n * 60 * 1000)
                     <$> parseInt (default (lit "30") (tweet_interval l))) l1)
        as (d & Hd & ->).
      simpl. repeat split; try done. by exists d.
  - destruct (setTimeout_timers GenerateTimeout (Some (15 * 60 * 1000)) l)
      as (d & Hd & ->).
    simpl. repeat split; try done. by exists d.
Qed.

(** X8. A stored interval that is set and reads as a number of minutes
    between 1 and 35791 arms the generation for that many minutes; one
    that [parseInt] cannot read, or that reads below 1 or above 35791
    minutes, arms it for one millisecond.  Either way the stored value
    stays. *)
Theorem X8_stored_interval_decides_the_delay (l : loop) (v : jsstring) :
  tweet_interval l = Some v ->
  v <> [] ->
  let l' := generateNewTweetLoop true l in
  let delay :=
    match parseInt v with
    | Some n => if (1 <=? n) && (n <=? 35791) then n * 60000 else 1
    | None => 1
    end in
  timers l' = timers l ++ [mkTimer (clock l + delay) GenerateTimeout]
  /\ tweet_interval l' = Some v.
Proof.
  intros Hv Hne. unfold generateNewTweetLoop, getPostInterval.
  rewrite Hv. simpl default.
  assert (is_set (Some v) = true) as -> by (by destruct v).
  unfold setTimeout. simpl. split; [|done].
  do 3 f_equal.
  destruct (parseInt v) as [n|]; [|done]. simpl.
  destruct (Z.leb_spec 1 n); destruct (Z.leb_spec n 35791);
    destruct (Z.leb_spec 1 (n * 60 * 1000));
    destruct (Z.leb_spec (n * 60 * 1000) 2147483647); simpl; lia.
Qed.

(** A stored interval that is no number: the generation is due one
    millisecond later. *)
Lemma X8_stored_interval_decides_the_delay_witness :
  let l := mkLoop 7 [] (Some (lit "soon")) [] in
  timers (generateNewTweetLoop true l) = [mkTimer 8 GenerateTimeout]
  /\ tweet_interval (generateNewTweetLoop true l) = Some (lit "soon").
Proof.
  apply (X8_stored_interval_decides_the_delay
           (mkLoop 7 [] (Some (lit "soon")) []) (lit "soon")).
  - reflexivity.
  - discriminate.
Defined.

(** ** The pass over the approved rows *)

Section Batch.

Lemma dispatch_calls (dry_run : bool) (tweet : DBTweet) (d : delivery)
    (w : world) :
  calls (dispatch dry_run tweet d w).2 = calls w
  \/ calls (dispatch dry_run tweet d w).2 = row_post tweet :: calls w.
Proof.
  unfold dispatch, sendTweetAndUpdateCache, row_post.
  repeat case_match; simplify_eq/=; auto.
Qed.

(** Only a failed media fetch makes a dispatch throw, and it throws
    before anything is written. *)
Lemma dispatch_throws (dry_run : bool) (tweet : DBTweet) (d : delivery)
    (w : world) :
  (dispatch dry_run tweet d w).1 = Throw ->
  dry_run = false /\ is_set (tw_mediaUrl tweet) = true
  /\ d_media_ok d = false /\ (dispatch dry_run tweet d w).2 = w.
Proof.
  unfold dispatch. destruct dry_run; [done|].
  destruct (is_set (tw_mediaUrl tweet)); simpl.
  - destruct (d_media_ok d); simpl; [|done].
    repeat case_match; simplify_eq/=; done.
  - repeat case_match; simplify_eq/=; done.
Qed.

Lemma dispatch_normal (tweet : DBTweet) (d : delivery) (w : world) :
  (is_set (tw_mediaUrl tweet) = true -> d_media_ok d = true) ->
  (dispatch false tweet d w).1 = Normal ().
Proof.
  intros Hm. destruct (dispatch false tweet d w).1 as [[]|] eqn:Hd; [done|].
  apply dispatch_throws in Hd as (_ & Hset & Hok & _).
  rewrite Hm in Hok; done.
Qed.

Lemma checkAndSendApprovedTweets_cons (dry_run : bool) (tweet : DBTweet)
    (d : delivery) (rest : list (DBTweet * delivery)) (w : world) :
  checkAndSendApprovedTweets dry_run ((tweet, d) :: rest) w
  = match (dispatch dry_run tweet d w).1 with
    | Normal _ =>
        checkAndSendApprovedTweets dry_run rest (dispatch dry_run tweet d w).2
    | Throw => (dispatch dry_run tweet d w).2
    end.
Proof. simpl. by destruct (dispatch dry_run tweet d w) as [[[]|] w']. Qed.

Lemma checkAndSendApprovedTweets_app (pre rest : list (DBTweet * delivery))
    (w : world) :
  Forall (fun td => is_set (tw_mediaUrl td.1) = true -> d_media_ok td.2 = true)
         pre ->
  checkAndSendApprovedTweets false (pre ++ rest) w
  = checkAndSendApprovedTweets false rest
      (checkAndSendApprovedTweets false pre w).
Proof.
  intros Hpre. revert w. induction Hpre as [|[t d] pre Hm _ IH]; intros w.
  - done.
  - rewrite <- app_comm_cons, !checkAndSendApprovedTweets_cons.
    rewrite (dispatch_normal t d w Hm). apply IH.
Qed.

End Batch.

(** X9. In a dry run neither [generateNewTweet] nor
    [checkAndSendApprovedTweets] changes anything: no post leaves, no
    row is written or restatused, no memory is created. *)
Theorem X9_dry_run_changes_nothing (g : generation)
    (result : list (DBTweet * delivery)) (w : world) :
  g_dry_run g = true ->
  generateNewTweet g w = w
  /\ checkAndSendApprovedTweets true result w = w.
Proof.
  intros Hdry. split.
  - unfold generateNewTweet. rewrite Hdry. repeat case_match; done.
  - induction result as [|[t d] rest IH]; [done|].
    by rewrite checkAndSendApprovedTweets_cons.
Qed.

Lemma X9_dry_run_changes_nothing_witness :
  let g := mkGeneration true false (Some (lit "gm")) None true
             (mkSettings None None) (Some []) 0 (mkUnit 0 0) (lit "tweet-1")
             true (Created (lit "1")) true in
  generateNewTweet g Scenario.table = Scenario.table
  /\ checkAndSendApprovedTweets true
       [(Scenario.approved_row, Scenario.delivered)] Scenario.table
     = Scenario.table.
Proof.
  apply (X9_dry_run_changes_nothing
           (mkGeneration true false (Some (lit "gm")) None true
              (mkSettings None None) (Some []) 0 (mkUnit 0 0) (lit "tweet-1")
              true (Created (lit "1")) true)).
  reflexivity.
Defined.

(** X10. A row of the table that is not marked sent, once dispatched,
    is left sent or in error by the answer to its post alone: sent
    when the queue rejects the post (nothing was posted) or when the
    post is created and nothing fails afterwards; in error when the
    answer is unreadable or malformed, and also when the post was
    created and a later step failed.  One post has left in every
    case. *)
Theorem X10_dispatch_final_status (tweet row : DBTweet) (d : delivery)
    (w : world) :
  tweets w !! tw_id tweet = Some row ->
  tw_status row <> Sent ->
  tw_id tweet <> [] ->
  (is_set (tw_mediaUrl tweet) = true -> d_media_ok d = true) ->
  let w' := (dispatch false tweet d w).2 in
  status_of (tw_id tweet) w' = Some (final_status d)
  /\ calls w' = row_post tweet :: calls w.
Proof.
  intros Hin Hns Hid Hmedia w'. split.
  - unfold final_status.
    destruct (d_response d) as [| | |rest_id] eqn:Hr.
    + apply (dispatch_leaves_sent tweet row w Hin Hns d Hmedia). by left.
    + apply (dispatch_leaves_error tweet row w Hin Hns d Hmedia Hid). auto.
    + apply (dispatch_leaves_error tweet row w Hin Hns d Hmedia Hid). auto.
    + destruct (d_after_ok d) eqn:Ha.
      * apply (dispatch_leaves_sent tweet row w Hin Hns d Hmedia).
        right. split; [by exists rest_id|done].
      * apply (dispatch_leaves_error tweet row w Hin Hns d Hmedia Hid).
        right. right. split; [by exists rest_id|done].
  - apply (dispatch_posts_once tweet row w Hin Hns d Hmedia).
Qed.

(** The queue rejects the post of an approved row: the row reads sent. *)
Lemma X10_dispatch_final_status_witness :
  let w' := (dispatch false Scenario.approved_row (mkDelivery true Rejected true)
               Scenario.table).2 in
  status_of (lit "tweet-1") w' = Some Sent
  /\ calls w' = [mkCall (sendTweet (lit "gm") None false) true].
Proof.
  apply (X10_dispatch_final_status Scenario.approved_row Scenario.approved_row
           (mkDelivery true Rejected true) Scenario.table);
    [reflexivity | discriminate | discriminate | discriminate].
Defined.

(** X11. The posts of one pass over the approved rows are posts of
    those rows, in their order, at most one for each row of the list,
    each through the queue with the content of its row; the pass makes
    no other call. *)
Theorem X11_batch_posts_each_row_at_most_once (dry_run : bool)
    (result : list (DBTweet * delivery)) (w : world) :
  exists posted,
    sublist posted (row_post <$> result.*1)
    /\ calls (checkAndSendApprovedTweets dry_run result w)
       = rev posted ++ calls w.
Proof.
  revert w. induction result as [|[t d] rest IH]; intros w.
  - exists []. split; [constructor|done].
  - rewrite checkAndSendApprovedTweets_cons.
    destruct (dispatch dry_run t d w).1 as [[]|] eqn:Hd.
    + destruct (IH (dispatch dry_run t d w).2) as (posted & Hsub & ->).
      destruct (dispatch_calls dry_run t d w) as [-> | ->].
      * exists posted. split; [|done]. simpl. by apply sublist_cons.
      * exists (row_post t :: posted). split.
        -- simpl. by apply sublist_skip.
        -- simpl. by rewrite <- app_assoc.
    + apply dispatch_throws in Hd as (_ & _ & _ & ->).
      exists []. split; [apply sublist_nil_l|done].
Qed.

(** X12. A row whose media cannot be fetched ends the pass: the rows
    behind it in the list are not dispatched, whatever they are, and the
    row itself is left as it was, so the next pass meets it again. *)
Theorem X12_media_failure_ends_the_batch
    (pre rest : list (DBTweet * delivery)) (tweet : DBTweet) (d : delivery)
    (w : world) :
  Forall (fun td => is_set (tw_mediaUrl td.1) = true -> d_media_ok td.2 = true)
         pre ->
  is_set (tw_mediaUrl tweet) = true ->
  d_media_ok d = false ->
  checkAndSendApprovedTweets false (pre ++ (tweet, d) :: rest) w
  = checkAndSendApprovedTweets false pre w.
Proof.
  intros Hpre Hset Hok.
  rewrite checkAndSendApprovedTweets_app by done.
  rewrite checkAndSendApprovedTweets_cons.
  unfold dispatch. by rewrite Hset, Hok.
Qed.

Lemma X12_media_failure_ends_the_batch_witness :
  let broken :=
    mkDBTweet (lit "tweet-0") (lit "pic") None Approved (lit "pic")
              (Some (lit "http://x/y.jpg")) 0 in
  checkAndSendApprovedTweets false
    ([] ++ (broken, mkDelivery false (Created (lit "9")) true)
        :: [(Scenario.approved_row, Scenario.delivered)]) Scenario.table
  = Scenario.table.
Proof.
  apply (X12_media_failure_ends_the_batch []
           [(Scenario.approved_row, Scenario.delivered)]
           (mkDBTweet (lit "tweet-0") (lit "pic") None Approved (lit "pic")
              (Some (lit "http://x/y.jpg")) 0)
           (mkDelivery false (Created (lit "9")) true) Scenario.table);
    [constructor | reflexivity | reflexivity].
Defined.

Section Statuses.








End Statuses.


(** ** The row generateNewTweet saves and the post it makes *)

(** X14. When the clean-up yields a non-empty text and nothing fails
    up to the save, [generateNewTweet] writes exactly one row: under
    the new id, pending, created now, scheduled by [randomFutureDate],
    holding the text cut by [truncateToCompleteSentence] at 240 and
    the raw answer; the media address is kept only for an image.  What
    it posts is that content after the final cleaning, without media,
    through the queue. *)
Theorem X14_generateNewTweet_saves_then_posts (g : generation) (w : world)
    (raw : jsstring) (c : N) (cs : jsstring) (pending : list Z) :
  g_context_ok g = true ->
  g_newTweetContent g = Some raw ->
  cleanedContent raw = Text (c :: cs) ->
  g_dry_run g = false ->
  g_pending g = Some pending ->
  g_save_ok g = true ->
  let content := truncateToCompleteSentence (c :: cs) MAX_TWEET_LENGTH in
  let row :=
    mkDBTweet (g_id g) content
      (randomFutureDate (g_settings g) pending (g_now g) (g_random g))
      Pending raw (if g_image g then g_mediaUrl g else None) (g_now g) in
  let w' := generateNewTweet g w in
  tweets w' = <[g_id g := row]> (tweets w)
  /\ calls w'
     = mkCall (sendTweet (finalCleaning content) None false) true :: calls w.
Proof.
  intros Hctx Hraw Hclean Hdry Hpending Hsave content row w'.
  unfold w', generateNewTweet, saveTweetToDb.
  rewrite Hctx, Hraw, Hclean, Hdry, Hpending, Hsave. simpl.
  destruct (g_response g); try destruct (g_after_ok g); done.
Qed.

Lemma X14_generateNewTweet_saves_then_posts_witness :
  let w' := generateNewTweet Scenario.gm empty_world in
  tweets w'
  = <[lit "tweet-1" :=
        mkDBTweet (lit "tweet-1")
          (truncateToCompleteSentence (lit "gm") MAX_TWEET_LENGTH)
          (randomFutureDate (g_settings Scenario.gm) []
             (g_now Scenario.gm) (g_random Scenario.gm))
          Pending (lit "gm") None (g_now Scenario.gm)]> ∅
  /\ calls w'
     = [mkCall (sendTweet (finalCleaning
                             (truncateToCompleteSentence (lit "gm")
                                MAX_TWEET_LENGTH)) None false) true].
Proof.
  apply (X14_generateNewTweet_saves_then_posts Scenario.gm empty_world
           (lit "gm") 103%N (lit "m") []); reflexivity.
Defined.

(** X15. An answer of the model that wraps its text in an object under
    [content], [message] or [response] (which [generateTweetContent]
    would unwrap) is dropped by [generateNewTweet]: nothing is saved
    and nothing is posted. *)
Theorem X15_generateNewTweet_drops_other_members (g : generation)
    (w : world) (key s : jsstring) :
  In key [lit "content"; lit "message"; lit "response"] ->
  s <> [] ->
  Forall (fun c => Payload.plain_char c = true) s ->
  g_newTweetContent g = Some (Payload.single_member key s) ->
  generateNewTweet g w = w
  /\ generateTweetContent (Payload.single_member key s)
     = Text (trimTweetLength s 280).
Proof.
  intros Hkey Hne Hs Hraw.
  assert (In key Payload.content_keys) as Hkey'.
  { simpl in *. tauto. }
  split; [|by apply generateTweetContent_member].
  unfold generateNewTweet. rewrite Hraw.
  assert (cleanedContent (Payload.single_member key s) = Text []) as ->.
  { unfold cleanedContent. rewrite parse_single_member by done.
    unfold Json.get. simpl in Hkey.
    destruct Hkey as [<-|[<-|[<-|[]]]]; reflexivity. }
  by destruct (negb (g_context_ok g)).
Qed.

Lemma X15_generateNewTweet_drops_other_members_witness :
  let g := mkGeneration true false
             (Some (Payload.single_member (lit "content") (lit "gm"))) None
             false (mkSettings None None) (Some []) 0 (mkUnit 0 0)
             (lit "tweet-1") true (Created (lit "1")) true in
  generateNewTweet g empty_world = empty_world
  /\ generateTweetContent (Payload.single_member (lit "content") (lit "gm"))
     = Text (trimTweetLength (lit "gm") 280).
Proof.
  apply (X15_generateNewTweet_drops_other_members
           (mkGeneration true false
              (Some (Payload.single_member (lit "content") (lit "gm"))) None
              false (mkSettings None None) (Some []) 0 (mkUnit 0 0)
              (lit "tweet-1") true (Created (lit "1")) true)
           empty_world (lit "content") (lit "gm")).
  - simpl. tauto.
  - discriminate.
  - repeat constructor.
  - reflexivity.
Defined.

(** ** One pass over the timeline *)

Section Actions.

Lemma item_inv_start (i : Id) (w : world) : item_inv i [] w (mkItem w []).
Proof.
  repeat split. exists []. repeat split; [constructor|].
  intros a Ha. by apply elem_of_nil in Ha.
Qed.

Lemma item_inv_allow (i : Id) (al : list action) (a : action) (w0 : world)
    (st : item_state) :
  item_inv i al w0 st -> item_inv i (al ++ [a]) w0 st.
Proof.
  intros (Ht & Hm & Hp & new & Hc & Hs & Hcalls). repeat split; try done.
  exists new. repeat split; try done. by apply sublist_inserts_r.
Qed.

(** A call is made and, perhaps, its tag pushed. *)
Lemma item_inv_call (i : Id) (al : list action) (a : action) (c : call)
    (w0 : world) (st : item_state) (pushed : bool) :
  call_of i a c = true ->
  item_inv i al w0 st ->
  item_inv i (al ++ [a]) w0
    (mkItem (mkWorld (tweets (i_world st)) (memories (i_world st))
               (c :: calls (i_world st)) (isProcessing (i_world st)))
            (if pushed then executedActions st ++ [a] else executedActions st)).
Proof.
  intros Hcall (Ht & Hm & Hp & new & Hc & Hs & Hcalls).
  repeat split; try done. simpl.
  exists (c :: new). repeat split.
  - by rewrite Hc.
  - destruct pushed; [by apply sublist_app|by apply sublist_inserts_r].
  - intros b Hb.
    assert (b ∈ executedActions st \/ (pushed = true /\ b = a)) as [Hin|[_ ->]].
    { destruct pushed; [|by left].
      apply elem_of_app in Hb as [?|Hb]; [by left|].
      apply list_elem_of_singleton in Hb. by right. }
    + destruct (Hcalls b Hin) as (c' & Hc' & Hok). exists c'.
      split; [by right|done].
    + exists c. split; [by left|done].
Qed.

Variables (tweet : Tweet) (p : processing).

Lemma do_like_inv (al : list action) (w0 : world) (st : item_state) :
  item_inv (t_id tweet) al w0 st ->
  item_inv (t_id tweet) (al ++ [Like]) w0 (do_like tweet p st).
Proof.
  intros H. unfold do_like, push, on_world, direct.
  pose proof (item_inv_call (t_id tweet) al Like
                (mkCall (likeTweet (t_id tweet)) false) w0 st (p_like_ok p))
    as Hstep.
  destruct (p_like_ok p); apply Hstep; try done;
    simpl; by rewrite bool_decide_eq_true_2.
Qed.

Lemma do_retweet_inv (al : list action) (w0 : world) (st : item_state) :
  item_inv (t_id tweet) al w0 st ->
  item_inv (t_id tweet) (al ++ [Retweet]) w0 (do_retweet tweet p st).
Proof.
  intros H. unfold do_retweet, push, on_world, direct.
  pose proof (item_inv_call (t_id tweet) al Retweet
                (mkCall (retweet (t_id tweet)) false) w0 st (p_retweet_ok p))
    as Hstep.
  destruct (p_retweet_ok p); apply Hstep; try done;
    simpl; by rewrite bool_decide_eq_true_2.
Qed.

Lemma do_quote_inv (al : list action) (w0 : world) (st : item_state) :
  item_inv (t_id tweet) al w0 st ->
  item_inv (t_id tweet) (al ++ [Quote]) w0 (do_quote tweet p st).2.
Proof.
  intros H. unfold do_quote, push, on_world, submit.
  destruct (negb (p_quote_context_ok p)); [by apply item_inv_allow|].
  destruct (p_quote_content p) as [[|c cs]|]; try by apply item_inv_allow.
  pose proof (fun b => item_inv_call (t_id tweet) al Quote
                (mkCall (sendQuoteTweet (c :: cs) (t_id tweet)) true) w0 st b)
    as Hstep.
  destruct (p_quote_response p);
    first [ apply (Hstep true) | apply (Hstep false) ]; try done;
    simpl; by rewrite bool_decide_eq_true_2.
Qed.

Lemma handleTextOnlyReply_inv (al : list action) (w0 : world)
    (st : item_state) :
  item_inv (t_id tweet) al w0 st ->
  item_inv (t_id tweet) (al ++ [Reply]) w0 (handleTextOnlyReply tweet p st).
Proof.
  intros H. unfold handleTextOnlyReply, push, on_world, submit.
  destruct (negb (p_reply_context_ok p)); [by apply item_inv_allow|].
  destruct (p_reply_content p) as [[|c cs]|]; try by apply item_inv_allow.
  pose proof (fun b => item_inv_call (t_id tweet) al Reply
                (mkCall (sendTweet (c :: cs) (Some (t_id tweet)) false) true)
                w0 st b)
    as Hstep.
  destruct (p_reply_response p);
    first [ apply (Hstep true) | apply (Hstep false) ]; try done;
    simpl; by rewrite bool_decide_eq_true_2.
Qed.

End Actions.

Section Timeline.

Lemma item_inv_if (i : Id) (al : list action) (a : action) (w0 : world)
    (b : bool) (f : item_state -> item_state) (st : item_state) :
  (forall st, item_inv i al w0 st -> item_inv i (al ++ [a]) w0 (f st)) ->
  item_inv i al w0 st ->
  item_inv i (al ++ (if b then [a] else [])) w0 (if b then f st else st).
Proof. intros Hf H. destruct b; [by apply Hf|by rewrite app_nil_r]. Qed.

Lemma decided_order (r : ActionResponse) :
  ((([] ++ (if a_like r then [Like] else []))
    ++ (if a_retweet r then [Retweet] else []))
   ++ (if a_quote r then [Quote] else []))
  ++ (if a_reply r then [Reply] else [])
  = List.filter (decided r) action_order.
Proof. by destruct r as [[] [] [] []]. Qed.

(** One tweet of the timeline. *)
Lemma process_tweet_inv (tweet : Tweet) (p : processing) (w : world) :
  let out := process_tweet tweet p w in
  tweets out.2 = tweets w
  /\ isProcessing out.2 = isProcessing w
  /\ exists new,
       calls out.2 = new ++ calls w
       /\ match out.1.2 with
          | Some r =>
              out.1.1 = Continues
              /\ tweetId r = t_id tweet
              /\ memories w !! t_id tweet = None
              /\ memories out.2
                 = <[t_id tweet :=
                       mkMemory (t_text tweet) (Some (r_executedActions r))]>
                     (memories w)
              /\ sublist (r_executedActions r)
                         (List.filter (decided (parsedActions r)) action_order)
              /\ forall a, a ∈ r_executedActions r ->
                   exists c, c ∈ new /\ call_of (t_id tweet) a c = true
          | None => memories out.2 = memories w
          end.
Proof.
  unfold process_tweet.
  destruct (memories w !! t_id tweet) eqn:Hmem.
  { simpl. repeat split. by exists []. }
  destruct (p_decision p) as [| |r].
  1, 2: simpl; repeat split; by exists [].
  set (st1 := if a_like r then _ else _).
  set (st2 := if a_retweet r then _ else _).
  set (al3 := (([] ++ (if a_like r then [Like] else []))
               ++ (if a_retweet r then [Retweet] else []))
              ++ (if a_quote r then [Quote] else [])).
  assert (item_inv (t_id tweet)
            (([] ++ (if a_like r then [Like] else []))
             ++ (if a_retweet r then [Retweet] else [])) w st2) as H2.
  { apply item_inv_if; [apply do_retweet_inv|].
    apply item_inv_if; [apply do_like_inv|]. apply item_inv_start. }
  assert (item_inv (t_id tweet) al3 w
            (if a_quote r then do_quote tweet p st2 else (Continues, st2)).2)
    as H3.
  { unfold al3. destruct (a_quote r); [by apply do_quote_inv|].
    by rewrite app_nil_r. }
  destruct (if a_quote r then do_quote tweet p st2 else (Continues, st2))
    as [[] st3]; simpl in H3.
  - set (st4 := if a_reply r then _ else _).
    assert (item_inv (t_id tweet) (List.filter (decided r) action_order) w st4)
      as H4.
    { rewrite <- decided_order. fold al3.
      apply item_inv_if; [apply handleTextOnlyReply_inv|done]. }
    destruct H4 as (Ht & Hm & Hp & new & Hc & Hs & Hcalls).
    destruct (p_record_ok p); simpl.
    + repeat split; try done. exists new. repeat split; try done.
      by rewrite Hm.
    + repeat split; try done. by exists new.
  - destruct H3 as (Ht & Hm & Hp & new & Hc & Hs & Hcalls). simpl.
    repeat split; try done. by exists new.
Qed.

(** The whole timeline, from the results gathered so far. *)
Lemma process_timeline_inv (tl : list (Tweet * processing))
    (results0 : list result) (w : world) :
  let out := process_timeline tl results0 w in
  tweets out.2 = tweets w
  /\ isProcessing out.2 = isProcessing w
  /\ memories w ⊆ memories out.2
  /\ (forall i, i ∉ (t_id <$> tl.*1) -> memories out.2 !! i = memories w !! i)
  /\ exists new,
       calls out.2 = new ++ calls w
       /\ forall results, out.1 = Completed results ->
            exists added,
              results = results0 ++ added
              /\ Forall (recorded w out.2 new) added
              /\ NoDup (tweetId <$> added)
              /\ sublist (tweetId <$> added) (t_id <$> tl.*1).
Proof.
  revert results0 w. induction tl as [|[tweet p] rest IH]; intros results0 w.
  - simpl. repeat split; try done. exists []. split; [done|].
    intros results [= <-]. exists []. rewrite app_nil_r.
    repeat split; try constructor.
  - simpl.
    pose proof (process_tweet_inv tweet p w) as Hstep. simpl in Hstep.
    destruct (process_tweet tweet p w) as [[f r] w1]. simpl in Hstep.
    destruct Hstep as (Ht1 & Hp1 & new1 & Hc1 & Hr).
    assert (memories w ⊆ memories w1
            /\ forall i, i <> t_id tweet -> memories w1 !! i = memories w !! i)
      as [Hsub1 Hch1].
    { destruct r as [res|].
      - destruct Hr as (_ & _ & Hnone & -> & _). split.
        + by apply insert_subseteq.
        + intros i Hi. by rewrite lookup_insert_ne.
      - rewrite Hr. by split. }
    destruct f.
    + specialize (IH (results0 ++ option_list r) w1). simpl in IH.
      destruct (process_timeline rest (results0 ++ option_list r) w1)
        as [out w2]. simpl in *.
      destruct IH as (Ht2 & Hp2 & Hsub2 & Hch2 & new2 & Hc2 & Hres).
      split; [congruence|]. split; [congruence|].
      split; [by etrans|]. split.
      { intros i Hi. apply not_elem_of_cons in Hi as [Hne Hi].
        rewrite Hch2 by done. by apply Hch1. }
      exists (new2 ++ new1). split; [by rewrite Hc2, Hc1, app_assoc|].
      intros results Hout. destruct (Hres results Hout)
        as (added & -> & Hrec & Hnd & Hids).
      exists (option_list r ++ added). split; [by rewrite app_assoc|].
      assert (Forall (recorded w w2 (new2 ++ new1)) added) as Hrec'.
      { eapply Forall_impl; [exact Hrec|].
        intros res (Hnone & (text & Hsome) & Hs & Hcalls). repeat split.
        - by eapply lookup_weaken_None.
        - by exists text.
        - done.
        - intros a Ha. destruct (Hcalls a Ha) as (c & Hc & Hok).
          exists c. split; [|done]. apply elem_of_app. by left. }
      destruct r as [res|]; simpl; [|by repeat split; try done;
                                       apply sublist_cons].
      destruct Hr as (_ & Hid & Hnone & Hmem & Hs & Hcalls).
      assert (memories w1 !! t_id tweet
              = Some (mkMemory (t_text tweet) (Some (r_executedActions res))))
        as Hnow by (by rewrite Hmem, lookup_insert_eq).
      repeat split.
      * constructor; [|done]. repeat split.
        -- by rewrite Hid.
        -- exists (t_text tweet). rewrite Hid.
           by eapply lookup_weaken.
        -- done.
        -- intros a Ha. destruct (Hcalls a Ha) as (c & Hc & Hok).
           exists c. rewrite Hid. split; [|done]. apply elem_of_app.
           by right.
      * constructor; [|done]. rewrite Hid. intros Hin.
        apply list_elem_of_fmap in Hin as (res2 & Heq & Hin).
        rewrite Forall_forall in Hrec.
        destruct (Hrec res2 Hin) as (Hnone2 & _).
        rewrite <- Heq in Hnone2. congruence.
      * rewrite Hid. by apply sublist_skip.
    + simpl. split; [done|]. split; [done|]. split; [done|]. split.
      { intros i Hi. apply not_elem_of_cons in Hi as [Hne Hi].
        by apply Hch1. }
      exists new1. split; [done|]. intros results [=].
Qed.

End Timeline.

Lemma processTweetActions_inv (tl : list (Tweet * processing)) (w : world) :
  isProcessing w = false ->
  let out := processTweetActions (Some tl) w in
  tweets out.2 = tweets w
  /\ isProcessing out.2 = false
  /\ memories w ⊆ memories out.2
  /\ (forall i, i ∉ (t_id <$> tl.*1) -> memories out.2 !! i = memories w !! i)
  /\ exists new,
       calls out.2 = new ++ calls w
       /\ forall results, out.1 = Completed results ->
            Forall (recorded w out.2 new) results
            /\ NoDup (tweetId <$> results)
            /\ sublist (tweetId <$> results) (t_id <$> tl.*1).
Proof.
  intros Hidle. unfold processTweetActions. rewrite Hidle.
  pose proof (process_timeline_inv tl [] (with_processing true w)) as H.
  simpl in H.
  destruct (process_timeline tl [] (with_processing true w)) as [r w2].
  simpl in *.
  destruct H as (Ht & _ & Hsub & Hframe & new & Hc & Hres).
  repeat split; try done. exists new. split; [done|].
  intros results Hcompleted.
  destruct (Hres results Hcompleted) as (added & -> & Hrec & Hnd & Hids).
  repeat split; done.
Qed.

(** A pass that gives results started idle. *)
Lemma completed_was_idle (tl : option (list (Tweet * processing)))
    (w w' : world) (results : list result) :
  processTweetActions tl w = (Completed results, w') ->
  isProcessing w = false.
Proof.
  unfold processTweetActions. by destruct (isProcessing w).
Qed.

Lemma process_timeline_recorded (tl : list (Tweet * processing))
    (results0 : list result) (w : world) :
  Forall (fun tp => is_Some (memories w !! t_id tp.1)) tl ->
  process_timeline tl results0 w = (Completed results0, w).
Proof.
  induction 1 as [|[tweet p] rest [m Hm] _ IH]; [done|].
  simpl in *. unfold process_tweet. rewrite Hm. simpl.
  by rewrite app_nil_r.
Qed.

(** X16. A timeline of tweets that all have their memory is passed
    over without a single call: an idle client completes the pass with
    no result and is left exactly as it was. *)
Theorem X16_recorded_tweets_are_skipped (tl : list (Tweet * processing))
    (w : world) :
  isProcessing w = false ->
  Forall (fun tp => is_Some (memories w !! t_id tp.1)) tl ->
  processTweetActions (Some tl) w = (Completed [], w).
Proof.
  intros Hidle Hall. unfold processTweetActions. rewrite Hidle.
  rewrite process_timeline_recorded by done.
  destruct w; simpl in *. by rewrite Hidle.
Qed.

(** The tweet of the pass before, met again with all four actions
    decided. *)
Lemma X16_recorded_tweets_are_skipped_witness :
  processTweetActions (Some [(Scenario.tweet42, Cases.mixed)])
    Cases.after_mixed
  = (Completed [], Cases.after_mixed).
Proof.
  apply (X16_recorded_tweets_are_skipped
           [(Scenario.tweet42, Cases.mixed)] Cases.after_mixed).
  - reflexivity.
  - repeat constructor. by eexists.
Defined.

(** X17. Every result of a completed pass belongs to a tweet of the
    timeline that had no memory before the pass and has one after it,
    holding the executed actions of the result; the results come in
    the order of the timeline and no tweet has two, even when the
    timeline lists it twice. *)
Theorem X17_completed_pass_records_its_results
    (tl : list (Tweet * processing)) (w w' : world) (results : list result) :
  processTweetActions (Some tl) w = (Completed results, w') ->
  Forall (fun r =>
            memories w !! tweetId r = None
            /\ exists text,
                 memories w' !! tweetId r
                 = Some (mkMemory text (Some (r_executedActions r))))
         results
  /\ NoDup (tweetId <$> results)
  /\ sublist (tweetId <$> results) (t_id <$> tl.*1).
Proof.
  intros Hout.
  pose proof (processTweetActions_inv tl w (completed_was_idle _ _ _ _ Hout))
    as H.
  rewrite Hout in H. simpl in H.
  destruct H as (_ & _ & _ & _ & new & _ & Hres).
  destruct (Hres results eq_refl) as (Hrec & Hnd & Hids).
  repeat split; try done.
  eapply Forall_impl; [exact Hrec|].
  intros r (Hnone & Hsome & _). by split.
Qed.

Lemma X17_completed_pass_records_its_results_witness :
  let results := [mkResult (lit "42") Cases.mixed_actions [Like; Quote]] in
  Forall (fun r =>
            memories empty_world !! tweetId r = None
            /\ exists text,
                 memories Cases.after_mixed !! tweetId r
                 = Some (mkMemory text (Some (r_executedActions r))))
         results
  /\ NoDup (tweetId <$> results)
  /\ sublist (tweetId <$> results)
             (t_id <$> [(Scenario.tweet42, Cases.mixed);
                        (Scenario.tweet42, Cases.mixed)].*1).
Proof.
  apply (X17_completed_pass_records_its_results
           [(Scenario.tweet42, Cases.mixed); (Scenario.tweet42, Cases.mixed)]
           empty_world Cases.after_mixed).
  reflexivity.
Defined.

(** X18. The executed actions of a result are among the actions that
    were decided for its tweet, each at most once, in the order like,
    retweet, quote, reply. *)
Theorem X18_executed_actions_were_decided
    (tl : list (Tweet * processing)) (w w' : world) (results : list result) :
  processTweetActions (Some tl) w = (Completed results, w') ->
  Forall (fun r =>
            sublist (r_executedActions r)
                    (List.filter (decided (parsedActions r)) action_order))
         results.
Proof.
  intros Hout.
  pose proof (processTweetActions_inv tl w (completed_was_idle _ _ _ _ Hout))
    as H.
  rewrite Hout in H. simpl in H.
  destruct H as (_ & _ & _ & _ & new & _ & Hres).
  destruct (Hres results eq_refl) as (Hrec & _).
  eapply Forall_impl; [exact Hrec|].
  by intros r (_ & _ & Hs & _).
Qed.

Lemma X18_executed_actions_were_decided_witness :
  Forall (fun r =>
            sublist (r_executedActions r)
                    (List.filter (decided (parsedActions r)) action_order))
         [mkResult (lit "42") Cases.mixed_actions [Like; Quote]].
Proof.
  apply (X18_executed_actions_were_decided
           [(Scenario.tweet42, Cases.mixed)] empty_world Cases.after_mixed).
  reflexivity.
Defined.

(** X19. Every executed action of a result stands for a call the pass
    made for that tweet: a like or a retweet called in place, a quote
    or a reply to the tweet handed to the queue. *)
Theorem X19_executed_actions_have_their_calls
    (tl : list (Tweet * processing)) (w w' : world) (results : list result) :
  processTweetActions (Some tl) w = (Completed results, w') ->
  exists new,
    calls w' = new ++ calls w
    /\ Forall (fun r =>
                 forall a, a ∈ r_executedActions r ->
                   exists c, c ∈ new /\ call_of (tweetId r) a c = true)
              results.
Proof.
  intros Hout.
  pose proof (processTweetActions_inv tl w (completed_was_idle _ _ _ _ Hout))
    as H.
  rewrite Hout in H. simpl in H.
  destruct H as (_ & _ & _ & _ & new & Hc & Hres).
  destruct (Hres results eq_refl) as (Hrec & _).
  exists new. split; [done|].
  eapply Forall_impl; [exact Hrec|].
  by intros r (_ & _ & _ & Hcalls).
Qed.

Lemma X19_executed_actions_have_their_calls_witness :
  exists new,
    calls Cases.after_mixed = new ++ calls empty_world
    /\ Forall (fun r =>
                 forall a, a ∈ r_executedActions r ->
                   exists c, c ∈ new /\ call_of (tweetId r) a c = true)
              [mkResult (lit "42") Cases.mixed_actions [Like; Quote]].
Proof.
  apply (X19_executed_actions_have_their_calls
           [(Scenario.tweet42, Cases.mixed)] empty_world Cases.after_mixed).
  reflexivity.
Defined.

(** X20. Whatever the timeline and however the pass ends (busy,
    completed, returned early or failed), [processTweetActions] leaves
    the table of tweets and the processing flag as it found them, never
    removes or rewrites a memory, creates memories only under ids of
    the timeline, and only adds calls. *)
Theorem X20_pass_frame (tl : option (list (Tweet * processing))) (w : world) :
  let w' := (processTweetActions tl w).2 in
  tweets w' = tweets w
  /\ isProcessing w' = isProcessing w
  /\ memories w ⊆ memories w'
  /\ (forall i, i ∉ (t_id <$> (default [] tl).*1) ->
        memories w' !! i = memories w !! i)
  /\ exists new, calls w' = new ++ calls w.
Proof.
  destruct (isProcessing w) eqn:Hbusy.
  { unfold processTweetActions. rewrite Hbusy. simpl.
    repeat split; try done. by exists []. }
  destruct tl as [tl|].
  - destruct (processTweetActions_inv tl w Hbusy)
      as (Ht & Hp & Hsub & Hframe & new & Hc & _).
    simpl. repeat split; try done. by exists new.
  - unfold processTweetActions. rewrite Hbusy. simpl.
    repeat split; try done. by exists [].
Qed.

(** ** The client and its own posts *)

(** X21. Once an approved row has been posted and recorded, the post is
    never acted on: when a timeline brings it back, the pass skips it,
    whatever actions would be decided for it. *)
Theorem X21_own_post_is_skipped (tweet : DBTweet) (d : delivery) (w : world)
    (rest_id : Id) (t : Tweet) (p : processing) :
  status_of (tw_id tweet) w <> Some Sent ->
  (is_set (tw_mediaUrl tweet) = true -> d_media_ok d = true) ->
  d_response d = Created rest_id ->
  d_after_ok d = true ->
  t_id t = rest_id ->
  let w' := (dispatch false tweet d w).2 in
  memories w' !! rest_id
  = Some (mkMemory (trim (tw_newTweetContent tweet)) None)
  /\ process_tweet t p w' = (Continues, None, w').
Proof.
  intros Hns Hmedia Hr Ha Hid w'.
  assert (memories w' !! rest_id
          = Some (mkMemory (trim (tw_newTweetContent tweet)) None)) as Hmem.
  { unfold w', dispatch, getSentTweetById, status_of in *.
    assert (is_set (tw_mediaUrl tweet) && negb (d_media_ok d) = false) as ->.
    { destruct (is_set (tw_mediaUrl tweet)); [|done]. by rewrite Hmedia. }
    destruct (tweets w !! tw_id tweet) as [row|] eqn:Hrow; simpl in *.
    - assert ((match tw_status row with Sent => true | _ => false end
               || false) = false) as ->.
      { by destruct (tw_status row). }
      unfold sendTweetAndUpdateCache. rewrite Hr, Ha. simpl.
      by rewrite lookup_insert_eq.
    - unfold sendTweetAndUpdateCache. rewrite Hr, Ha. simpl.
      by rewrite lookup_insert_eq. }
  split; [done|]. unfold process_tweet. by rewrite Hid, Hmem.
Qed.

Lemma X21_own_post_is_skipped_witness :
  let w' := (dispatch false Scenario.approved_row Scenario.delivered
               Scenario.table).2 in
  memories w' !! lit "900" = Some (mkMemory (trim (lit "gm")) None)
  /\ process_tweet (mkTweet (lit "900") (lit "gm")) Cases.mixed w'
     = (Continues, None, w').
Proof.
  apply (X21_own_post_is_skipped Scenario.approved_row Scenario.delivered
           Scenario.table (lit "900") (mkTweet (lit "900") (lit "gm"))
           Cases.mixed); try reflexivity; discriminate.
Defined.

(** ** The loop of the actions *)

Section Rounds.

Variable ACTION_INTERVAL : option jsstring.

Lemma timeout_delay_pos (d : Z) : 1 <= timeout_delay d <= 2147483647.
Proof.
  unfold timeout_delay.
  destruct (Z.leb_spec 1 d); destruct (Z.leb_spec d 2147483647); simpl; lia.
Qed.

Lemma likes_of_app (i : Id) (cs cs' : list call) :
  likes_of i (cs ++ cs') = (likes_of i cs + likes_of i cs')%nat.
Proof. unfold likes_of. by rewrite List.filter_app, length_app. Qed.

(** A pass whose first tweet is new, with a like and a quote decided
    and an empty content for the quote. *)
Lemma early_return_pass (tweet : Tweet) (p : processing)
    (rest : list (Tweet * processing)) (r : ActionResponse) (w : world) :
  isProcessing w = false ->
  memories w !! t_id tweet = None ->
  p_decision p = Decided r ->
  a_like r = true ->
  a_quote r = true ->
  p_quote_context_ok p = true ->
  p_quote_content p = Some [] ->
  exists w',
    processTweetActions (Some ((tweet, p) :: rest)) w = (ReturnedEarly, w')
    /\ isProcessing w' = false
    /\ memories w' = memories w
    /\ likes_of (t_id tweet) (calls w') = S (likes_of (t_id tweet) (calls w)).
Proof.
  intros Hidle Hnew Hd Hlike Hquote Hctx Hcontent.
  unfold processTweetActions. rewrite Hidle. simpl.
  unfold process_tweet. simpl. rewrite Hnew, Hd, Hlike, Hquote.
  unfold do_quote. rewrite Hctx, Hcontent. simpl.
  eexists. split; [reflexivity|]. simpl.
  split; [done|]. split.
  { unfold do_like, do_retweet, push, on_world, direct.
    by destruct (a_retweet r), (p_like_ok p), (p_retweet_ok p). }
  unfold do_like, do_retweet, push, on_world, direct, likes_of.
  destruct (a_retweet r), (p_like_ok p), (p_retweet_ok p); simpl;
    by rewrite bool_decide_eq_true_2.
Qed.

Lemma idle_pass_over_recorded (tl : list (Tweet * processing)) (w : world) :
  isProcessing w = false ->
  Forall (fun tp => is_Some (memories w !! t_id tp.1)) tl ->
  processTweetActions (Some tl) w = (Completed [], w).
Proof.
  intros Hidle Hall. unfold processTweetActions. rewrite Hidle.
  rewrite process_timeline_recorded by done.
  destruct w; simpl in *. by rewrite Hidle.
Qed.

End Rounds.

(** X22. A pass that returns early is followed by the next one without
    any pause, and since it recorded nothing the next one starts over:
    while the first tweet of the timeline is new, has a like and a
    quote decided and the content of the quote comes empty, [n] rounds
    of the loop take no time and like the tweet [n] times. *)
Theorem X22_early_return_repeats_without_pause
    (ACTION_INTERVAL : option jsstring) (tweet : Tweet) (p : processing)
    (r : ActionResponse) (rounds : list (option (list (Tweet * processing))))
    (waited : Z) (w : world) :
  isProcessing w = false ->
  memories w !! t_id tweet = None ->
  p_decision p = Decided r ->
  a_like r = true ->
  a_quote r = true ->
  p_quote_context_ok p = true ->
  p_quote_content p = Some [] ->
  Forall (fun round => exists rest, round = Some ((tweet, p) :: rest)) rounds ->
  let out := processActionsLoop ACTION_INTERVAL rounds waited w in
  out.1 = waited
  /\ likes_of (t_id tweet) (calls out.2)
     = (likes_of (t_id tweet) (calls w) + length rounds)%nat.
Proof.
  intros Hidle Hnew Hd Hlike Hquote Hctx Hcontent Hrounds.
  revert w Hidle Hnew.
  induction Hrounds as [|round rounds [rest ->] _ IH]; intros w Hidle Hnew.
  - simpl. split; [done|lia].
  - destruct (early_return_pass tweet p rest r w Hidle Hnew Hd Hlike Hquote
                Hctx Hcontent) as (w' & Hpass & Hidle' & Hmem & Hlikes).
    cbn [processActionsLoop]. rewrite Hpass. cbn [pause].
    rewrite Z.add_0_r.
    destruct (IH w' Hidle' ltac:(by rewrite Hmem)) as [Hw Hl].
    cbn zeta in *. split; [done|]. rewrite Hl, Hlikes. simpl. lia.
Qed.

Lemma X22_early_return_repeats_without_pause_witness :
  let round := Some [(Scenario.tweet42, Scenario.quote_comes_empty)] in
  let out := processActionsLoop None [round; round; round] 0 empty_world in
  out.1 = 0
  /\ likes_of (lit "42") (calls out.2)
     = (likes_of (lit "42") (calls empty_world) + 3)%nat.
Proof.
  apply (X22_early_return_repeats_without_pause None Scenario.tweet42
           Scenario.quote_comes_empty (mkActions true true true true));
    try reflexivity.
  repeat constructor; by eexists.
Defined.

(** X23. While every tweet of the timeline has its memory, a round of
    the loop changes nothing and waits for the action interval: five
    minutes when the setting is unset, unreadable or zero, one
    millisecond when it is below 1 or above 2^31 - 1. *)
Theorem X23_idle_rounds_wait_the_interval
    (ACTION_INTERVAL : option jsstring)
    (rounds : list (option (list (Tweet * processing)))) (waited : Z)
    (w : world) :
  isProcessing w = false ->
  Forall (fun round =>
            exists tl, round = Some tl
              /\ Forall (fun tp => is_Some (memories w !! t_id tp.1)) tl)
         rounds ->
  processActionsLoop ACTION_INTERVAL rounds waited w
  = (waited
     + Z.of_nat (length rounds) * timeout_delay (actionInterval ACTION_INTERVAL),
     w)
  /\ 1 <= timeout_delay (actionInterval ACTION_INTERVAL) <= 2147483647
  /\ (ACTION_INTERVAL ≫= parseInt = None \/ ACTION_INTERVAL ≫= parseInt = Some 0 ->
      timeout_delay (actionInterval ACTION_INTERVAL) = 300000).
Proof.
  intros Hidle Hrounds. split; [|split].
  - revert waited. induction Hrounds as [|round rounds (tl & -> & Htl) _ IH];
      intros waited.
    + simpl. f_equal. lia.
    + cbn [processActionsLoop].
      rewrite idle_pass_over_recorded by done. cbn [pause]. rewrite IH.
      f_equal. rewrite length_cons. lia.
  - apply timeout_delay_pos.
  - unfold actionInterval, int_setting. by intros [-> | ->].
Qed.

(** Two rounds over the tweet of the pass before, no interval set. *)
Lemma X23_idle_rounds_wait_the_interval_witness :
  let round := Some [(Scenario.tweet42, Cases.mixed)] in
  processActionsLoop None [round; round] 0 Cases.after_mixed
  = (0 + Z.of_nat (length [round; round])
         * timeout_delay (actionInterval None), Cases.after_mixed)
  /\ 1 <= timeout_delay (actionInterval None) <= 2147483647
  /\ (None ≫= parseInt = None \/ None ≫= parseInt = Some 0 ->
      timeout_delay (actionInterval None) = 300000).
Proof.
  apply (X23_idle_rounds_wait_the_interval None
           [Some [(Scenario.tweet42, Cases.mixed)];
            Some [(Scenario.tweet42, Cases.mixed)]] 0 Cases.after_mixed).
  - reflexivity.
  - repeat constructor; eexists; (split; [reflexivity|]);
      repeat constructor; by eexists.
Defined.

(** ** Trending searches *)

Section Chunks.

Context {A : Type}.

Lemma concat_chunk_from (size fuel : nat) (array : list A) :
  (1 <= size)%nat -> (length array <= fuel)%nat ->
  concat (chunk_from fuel size array) = array.
Proof.
  intros Hsize. revert array.
  induction fuel as [|fuel IH]; intros array Hlen.
  - destruct array; [done|]. simpl in Hlen. lia.
  - destruct array as [|x array]; [done|].
    cbn [chunk_from concat]. rewrite IH.
    + apply take_drop.
    + rewrite length_drop. simpl in *. lia.
Qed.

Lemma concat_chunk (size : nat) (array : list A) :
  (1 <= size)%nat -> concat (chunk array size) = array.
Proof.
  intros Hsize. unfold chunk. destruct size; [lia|].
  by apply concat_chunk_from.
Qed.

End Chunks.

Lemma lit_inj (s t : string) : lit s = lit t -> s = t.
Proof.
  unfold lit. intros H.
  assert (forall l, List.map ascii_of_N (List.map N_of_ascii l) = l) as Hid.
  { induction l as [|a l IH]; [done|]. simpl.
    by rewrite ascii_N_embedding, IH. }
  apply (f_equal (List.map ascii_of_N)) in H. rewrite !Hid in H.
  apply (f_equal string_of_list_ascii) in H.
  by rewrite !string_of_list_ascii_of_string in H.
Qed.

Lemma toString_inj (i j : nat) : toString i = toString j -> i = j.
Proof.
  unfold toString. intros H. apply lit_inj in H.
  apply (f_equal DecimalString.NilEmpty.uint_of_string) in H.
  rewrite !DecimalString.NilEmpty.usu in H.
  assert (Nat.to_uint i = Nat.to_uint j) as Hu by congruence.
  apply (f_equal Nat.of_uint) in Hu.
  by rewrite !DecimalNat.Unsigned.of_to in Hu.
Qed.

(** X24. [enrichConnections] returns one enriched connection for each
    connection, in the order of the connections, each made by
    [enrichConnection] from its own connection: the chunks of three
    leave no trace in the result. *)
Theorem X24_enrichConnections_maps_every_connection (sv : services)
    (connections : list Connection) :
  enrichConnections sv connections = enrichConnection sv <$> connections
  /\ e_connection <$> enrichConnections sv connections = connections.
Proof.
  assert (enrichConnections sv connections
          = enrichConnection sv <$> connections) as ->.
  { unfold enrichConnections.
    assert (forall chunks : list (list Connection),
              concat ((fun chunk : list Connection =>
                         enrichConnection sv <$> chunk) <$> chunks)
              = enrichConnection sv <$> concat chunks) as Hflat.
    { induction chunks as [|ch chunks IH]; [done|].
      rewrite fmap_cons, !concat_cons, fmap_app. by f_equal. }
    cbn zeta. rewrite Hflat. by rewrite concat_chunk by lia. }
  split; [done|].
  rewrite <- list_fmap_compose.
  induction connections as [|c cs IH]; [done|]. simpl. by f_equal.
Qed.

(** X25. [generateTrendingConnections] throws exactly when its own
    fetch of the trending searches fails.  Otherwise it returns a
    stream whose two totals are the numbers of its nodes and of its
    connections, and which either is the minimal structure (a later
    step failed) or has one node for each fetched search, in order,
    with an empty breakdown for a missing one. *)
Theorem X25_generateTrendingConnections_outcome (sv : services) :
  match fetched sv with
  | None => generateTrendingConnections sv = Throw
  | Some searches =>
      exists stream,
        generateTrendingConnections sv = Normal stream
        /\ total_nodes stream = length (nodes stream)
        /\ total_connections stream = length (connections stream)
        /\ timestamp stream = now sv
        /\ (stream = minimal sv
            \/ n_query <$> nodes stream = raw_query <$> searches
               /\ n_trend_breakdown <$> nodes stream
                  = (fun s => default [] (raw_trend_breakdown s)) <$> searches)
  end.
Proof.
  unfold generateTrendingConnections, fetchTrendingSearches.
  destruct (fetched sv) as [searches|]; [|done].
  destruct (generateSimpleTrendingConnections sv) as [tc|].
  - destruct (improveConnections sv _) as [improved|].
    + eexists. split; [reflexivity|]. simpl.
      rewrite !length_fmap. repeat split. right.
      rewrite <- !list_fmap_compose, !fmap_imap. split.
      * by rewrite <- imap_const.
      * by rewrite <- imap_const.
    + eexists. split; [reflexivity|]. repeat split. by left.
  - eexists. split; [reflexivity|]. repeat split. by left.
Qed.

(** X26. The searches [fetchTrendingSearches] returns are as many as
    the entries fetched, the one at index [k] has the decimal digits of
    [k] as its id, no two have the same id, and giving them ids again,
    as [generateSimpleTrendingConnections] does, changes nothing. *)
Theorem X26_fetched_searches_have_their_index_as_id
    (entries : list RawSearch) (searches : list TrendingSearch) :
  fetchTrendingSearches (Some entries) = Normal searches ->
  length searches = length entries
  /\ (forall k s, searches !! k = Some s -> ts_id s = toString k)
  /\ NoDup (ts_id <$> searches)
  /\ withIds searches = searches.
Proof.
  intros [= <-].
  assert (forall k s,
            imap (fun idx search =>
                    mkSearch (toString idx) (raw_query search)
                      (raw_search_volume search)
                      (raw_increase_percentage search)
                      (raw_trend_breakdown search)) entries !! k = Some s ->
            ts_id s = toString k) as Hid.
  { intros k s Hk. rewrite list_lookup_imap in Hk.
    destruct (entries !! k); by simplify_eq/=. }
  split; [by rewrite length_imap|]. split; [done|]. split.
  - apply NoDup_alt. intros i j x Hi Hj.
    rewrite list_lookup_fmap in Hi, Hj.
    destruct (imap _ entries !! i) as [si|] eqn:Hsi; [|done].
    destruct (imap _ entries !! j) as [sj|] eqn:Hsj; [|done].
    simpl in *. apply Hid in Hsi, Hsj. apply toString_inj. congruence.
  - unfold withIds. apply list_eq. intros k.
    rewrite list_lookup_imap.
    destruct (imap _ entries !! k) as [s|] eqn:Hs; [|done].
    simpl. apply Hid in Hs. destruct s; simpl in *. by rewrite Hs.
Qed.

Lemma X26_fetched_searches_have_their_index_as_id_witness :
  let entries := [mkRaw (lit "a") (1, 0) (2, 0) None;
                  mkRaw (lit "b") (3, 0) (4, 0) (Some [lit "c"])] in
  let searches := [mkSearch (lit "0") (lit "a") (1, 0) (2, 0) None;
                   mkSearch (lit "1") (lit "b") (3, 0) (4, 0)
                     (Some [lit "c"])] in
  length searches = length entries
  /\ (forall k s, searches !! k = Some s -> ts_id s = toString k)
  /\ NoDup (ts_id <$> searches)
  /\ withIds searches = searches.
Proof.
  apply (X26_fetched_searches_have_their_index_as_id
           [mkRaw (lit "a") (1, 0) (2, 0) None;
            mkRaw (lit "b") (3, 0) (4, 0) (Some [lit "c"])]).
  reflexivity.
Defined.

(** ** Length after trimTweetLength *)

Lemma lastIndexOf_below (c : N) (s : jsstring) :
  lastIndexOf s [c] None < len s.
Proof.
  destruct (Z.ltb_spec 0 (len s)) as [Hpos|Hnil].
  - rewrite lastIndexOf_no_position by done.
    destruct (lastIndexOf_spec c s (len s - 1) ltac:(lia))
      as [[-> _]|(k & -> & Hk & _)]; lia.
  - unfold lastIndexOf.
    destruct (Z.ltb_spec (len s) (len [c])); unfold len in *; simpl in *; lia.
Qed.

(** X27. [trimTweetLength] keeps to its maximum whenever the text has
    a word boundary to cut at: for a text longer than a maximum of at
    least 3 with a space at or before the offset [maxLength - 3], the
    result has at most [maxLength] code units, whether the cut is made
    at a period or at a space. *)
Theorem X27_trimTweetLength_keeps_to_the_maximum
    (text : jsstring) (maxLength : Z) (j : nat) :
  3 <= maxLength -> maxLength < len text ->
  Z.of_nat j <= maxLength - 3 -> text !! j = Some 32%N ->
  len (trimTweetLength text maxLength) <= maxLength.
Proof.
  intros Hmax Hlong Hj Hat. unfold trimTweetLength.
  destruct (Z.leb_spec (len text) maxLength); [lia|].
  change (lit ".") with [46%N]. change (lit " ") with [32%N].
  pose proof (lastIndexOf_below 46%N (slice text 0 maxLength)) as Hp.
  pose proof (len_slice_prefix text maxLength ltac:(lia)) as Hcut.
  assert (0 <= lastIndexOf text [32%N] (Some (maxLength - 3))
          <= maxLength - 3) as Hs.
  { destruct (lastIndexOf_spec 32%N text (maxLength - 3) ltac:(lia))
      as [[_ Hno]|(k & -> & Hk & _)]; [|lia]. by destruct (Hno j Hj). }
  cbn zeta. destruct (Z.ltb_spec 0 (lastIndexOf (slice text 0 maxLength)
                                      [46%N] None)) as [Hfound|Hnone].
  - pose proof (len_trim (slice text 0
                   (lastIndexOf (slice text 0 maxLength) [46%N] None + 1))).
    pose proof (len_slice_prefix text
                  (lastIndexOf (slice text 0 maxLength) [46%N] None + 1)
                  ltac:(lia)).
    lia.
  - pose proof (len_trim (slice text 0
                   (lastIndexOf text [32%N] (Some (maxLength - 3))))).
    pose proof (len_slice_prefix text
                  (lastIndexOf text [32%N] (Some (maxLength - 3)))
                  ltac:(lia)).
    rewrite len_app. change (len (lit "...")) with 3. lia.
Qed.

(** A maximum of 10 and a space at offset 5: eight code units. *)
Lemma X27_trimTweetLength_keeps_to_the_maximum_witness :
  len (trimTweetLength (lit "hello brave new world") 10) <= 10.
Proof.
  apply (X27_trimTweetLength_keeps_to_the_maximum
           (lit "hello brave new world") 10 5);
    [lia | vm_compute; reflexivity | lia | reflexivity].
Defined.

(** ** What generateNewTweet can touch *)

(** X28. Whatever the model, the services and the settings do,
    [generateNewTweet] leaves every row but the one under its new id
    alone, leaves that row as it was or writes it as pending, makes no
    call or exactly one (a post that is no reply, has no media and goes
    through the queue), and never clears the processing flag or
    removes a memory key. *)
Theorem X28_generateNewTweet_frame (g : generation) (w : world) :
  let w' := generateNewTweet g w in
  (forall i, i <> g_id g -> tweets w' !! i = tweets w !! i)
  /\ (tweets w' !! g_id g = tweets w !! g_id g
      \/ status_of (g_id g) w' = Some Pending)
  /\ (calls w' = calls w
      \/ exists text,
           calls w' = mkCall (sendTweet text None false) true :: calls w)
  /\ isProcessing w' = isProcessing w
  /\ (forall i, is_Some (memories w !! i) -> is_Some (memories w' !! i)).
Proof.
  unfold generateNewTweet, saveTweetToDb, status_of, saveTweetObject,
    with_tweets, submit, createMemory.
  repeat case_match; simplify_eq/=;
    (split; [intros i Hi; by rewrite ?lookup_insert_ne|]);
    (split; [first [by left | right; by rewrite lookup_insert_eq]|]);
    (split; [first [by left | right; by eexists]|]);
    (split; [done|]);
    intros i Hi; try done;
    match goal with
    | |- is_Some (<[?k := _]> _ !! i) =>
        destruct (decide (i = k)) as [->|Hne];
        [rewrite lookup_insert_eq; by eexists|by rewrite lookup_insert_ne]
    end.
Qed.
